(** * Alignment and consensus of transcripts (transcribe_consensus.py)

    A shallow embedding of [align_two], [consensus_two] and
    [consensus_three], together with the part of Python's
    [difflib.SequenceMatcher] they run on ([__chain_b],
    [find_longest_match], [get_matching_blocks], [get_opcodes]).

    Python values that occur in token lists are strings or [None]; they are
    modelled as [option string], [None] being Python's [None], which
    [align_two] also uses as its gap marker.  Dictionaries are [gmap]s,
    indices are [nat] (every subtraction the code performs on indices is shown
    not to underflow, see [scan_best_no_underflow]). *)

From Stdlib Require Import Lia.
From stdpp Require Import gmap strings list sorting pretty.

Abbreviation pyval := (option string).

(** ** difflib.SequenceMatcher *)

Module Difflib.

(** A matching block [(i, j, k)]: [a[i:i+k] == b[j:j+k]]. *)
Abbreviation Match := (nat * nat * nat)%type.

(** The state of [SequenceMatcher(None, a, b)] once [__init__] has run:
    the two sequences, the index [b2j] and the junk set (no [isjunk]
    function is given, so [bjunk] stays empty). *)
Record SequenceMatcher := mkSM {
  sm_a : list pyval;
  sm_b : list pyval;
  b2j : gmap pyval (list nat);
  bjunk : gset pyval
}.

(** [for i, elt in enumerate(b): b2j.setdefault(elt, []).append(i)],
    started at index [i]. *)
Fixpoint index_elements (i : nat) (b : list pyval)
    (m : gmap pyval (list nat)) : gmap pyval (list nat) :=
  match b with
  | [] => m
  | elt :: rest =>
      index_elements (S i) rest (<[elt := default [] (m !! elt) ++ [i]]> m)
  end.

(** The purge of popular elements: with [autojunk] (the default) and
    [n >= 200], every element whose index list is longer than
    [n // 100 + 1] is deleted from [b2j]. *)
Definition purge_popular (n : nat) (m : gmap pyval (list nat))
    : gmap pyval (list nat) :=
  if bool_decide (200 ≤ n) then
    let ntest := n `div` 100 + 1 in
    filter (λ kv, ¬ (ntest < length kv.2)) m
  else m.

Definition chain_b (b : list pyval) : gmap pyval (list nat) :=
  purge_popular (length b) (index_elements 0 b ∅).

Definition new (a b : list pyval) : SequenceMatcher :=
  {| sm_a := a; sm_b := b; b2j := chain_b b; bjunk := ∅ |}.

Section find_longest_match.
Variable sm : SequenceMatcher.
Variables alo ahi blo bhi : nat.

Definition isbjunk (x : pyval) : bool := bool_decide (x ∈ bjunk sm).

(** [a[i] == b[j]] for indices in range. *)
Definition same_at (i j : nat) : bool :=
  match sm_a sm !! i, sm_b sm !! j with
  | Some x, Some y => bool_decide (x = y)
  | _, _ => false
  end.

Definition junk_at (j : nat) : bool :=
  match sm_b sm !! j with
  | Some y => isbjunk y
  | None => false
  end.

(** [j2len.get(j-1, 0)]; for [j = 0] the key is [-1], never present. *)
Definition j2lenget (j2len : gmap nat nat) (j : nat) : nat :=
  match j with
  | 0 => 0
  | S j' => default 0 (j2len !! j')
  end.

(** The inner loop [for j in b2j.get(a[i], nothing)], with its
    [continue] and [break]. The state is [newj2len] and the best match. *)
Fixpoint scan_row (i : nat) (j2len : gmap nat nat) (js : list nat)
    (newj2len : gmap nat nat) (best : Match) : gmap nat nat * Match :=
  match js with
  | [] => (newj2len, best)
  | j :: js' =>
      if bool_decide (j < blo) then scan_row i j2len js' newj2len best
      else if bool_decide (bhi ≤ j) then (newj2len, best)
      else
        let k := j2lenget j2len j + 1 in
        let newj2len := <[j := k]> newj2len in
        let best :=
          if bool_decide (best.2 < k) then (i + 1 - k, j + 1 - k, k)
          else best in
        scan_row i j2len js' newj2len best
  end.

(** The outer loop [for i in range(alo, ahi)]. *)
Fixpoint scan_rows (rows : list nat) (j2len : gmap nat nat) (best : Match)
    : Match :=
  match rows with
  | [] => best
  | i :: rows' =>
      let js := default [] (sm_a sm !! i ≫= λ x, b2j sm !! x) in
      let '(newj2len, best) := scan_row i j2len js ∅ best in
      scan_rows rows' newj2len best
  end.

(** [while besti > alo and bestj > blo and (not) isbjunk(b[bestj-1]) and
    a[besti-1] == b[bestj-1]], by recursion on [besti]; [junk] selects
    the junk variant of the loop. *)
Fixpoint extend_back (junk : bool) (besti bestj bestsize : nat) : Match :=
  match besti with
  | 0 => (besti, bestj, bestsize)
  | S i' =>
      if bool_decide (alo < besti) && bool_decide (blo < bestj)
         && bool_decide (junk_at (bestj - 1) = junk)
         && same_at (besti - 1) (bestj - 1)
      then extend_back junk i' (bestj - 1) (bestsize + 1)
      else (besti, bestj, bestsize)
  end.

(** [while besti+bestsize < ahi and bestj+bestsize < bhi and ...]; [n]
    bounds the number of iterations and is [ahi - (besti+bestsize)] at
    the call, where the loop test fails by itself after [n] rounds. *)
Fixpoint extend_fwd (junk : bool) (n : nat) (besti bestj bestsize : nat)
    : Match :=
  match n with
  | 0 => (besti, bestj, bestsize)
  | S n' =>
      if bool_decide (besti + bestsize < ahi)
         && bool_decide (bestj + bestsize < bhi)
         && bool_decide (junk_at (bestj + bestsize) = junk)
         && same_at (besti + bestsize) (bestj + bestsize)
      then extend_fwd junk n' besti bestj (bestsize + 1)
      else (besti, bestj, bestsize)
  end.

Definition extend (junk : bool) (m : Match) : Match :=
  let '(besti, bestj, bestsize) := m in
  let '(besti, bestj, bestsize) := extend_back junk besti bestj bestsize in
  extend_fwd junk (ahi - (besti + bestsize)) besti bestj bestsize.

Definition find_longest_match : Match :=
  let best := scan_rows (seq alo (ahi - alo)) ∅ (alo, blo, 0) in
  extend true (extend false best).
End find_longest_match.

(** Lexicographic order on triples, the order of [matching_blocks.sort()]. *)
Definition match_le (x y : Match) : Prop :=
  x.1.1 < y.1.1 ∨
  (x.1.1 = y.1.1 ∧ (x.1.2 < y.1.2 ∨ (x.1.2 = y.1.2 ∧ x.2 ≤ y.2))).

Global Instance match_le_dec : RelDecision match_le.
Proof. intros x y. unfold match_le. apply _. Defined.

Abbreviation Region := (nat * nat * nat * nat)%type.

(** The [while queue:] loop of [get_matching_blocks]. The queue is a
    Python list used as a stack ([pop] takes the last element, [append]
    adds one): its top is the head of [queue]. [fuel] bounds the number of
    iterations; [matching_loop_fuel] shows that the loop has emptied the
    queue before the fuel given by [get_matching_blocks] runs out. *)
Fixpoint matching_loop (sm : SequenceMatcher) (fuel : nat)
    (queue : list Region) (matching_blocks : list Match) : list Match :=
  match fuel with
  | 0 => matching_blocks
  | S fuel' =>
      match queue with
      | [] => matching_blocks
      | (alo, ahi, blo, bhi) :: queue =>
          let x := find_longest_match sm alo ahi blo bhi in
          let '(i, j, k) := x in
          if bool_decide (k ≠ 0) then
            let queue :=
              if bool_decide (alo < i) && bool_decide (blo < j)
              then (alo, i, blo, j) :: queue else queue in
            let queue :=
              if bool_decide (i + k < ahi) && bool_decide (j + k < bhi)
              then (i + k, ahi, j + k, bhi) :: queue else queue in
            matching_loop sm fuel' queue (matching_blocks ++ [x])
          else matching_loop sm fuel' queue matching_blocks
      end
  end.

(** The loop that collapses adjacent blocks; the state is the pending
    block [(i1, j1, k1)] and [non_adjacent]. *)
Fixpoint collapse (blocks : list Match) (cur : Match)
    (non_adjacent : list Match) : Match * list Match :=
  match blocks with
  | [] => (cur, non_adjacent)
  | (i2, j2, k2) :: rest =>
      let '(i1, j1, k1) := cur in
      if bool_decide (i1 + k1 = i2) && bool_decide (j1 + k1 = j2)
      then collapse rest (i1, j1, k1 + k2) non_adjacent
      else
        let non_adjacent :=
          if bool_decide (k1 ≠ 0) then non_adjacent ++ [(i1, j1, k1)]
          else non_adjacent in
        collapse rest (i2, j2, k2) non_adjacent
  end.

Definition get_matching_blocks (sm : SequenceMatcher) : list Match :=
  let la := length (sm_a sm) in
  let lb := length (sm_b sm) in
  let matching_blocks := matching_loop sm (2 * la + 1) [(0, la, 0, lb)] [] in
  let matching_blocks := merge_sort match_le matching_blocks in
  let '((i1, j1, k1), non_adjacent) := collapse matching_blocks (0, 0, 0) [] in
  let non_adjacent :=
    if bool_decide (k1 ≠ 0) then non_adjacent ++ [(i1, j1, k1)]
    else non_adjacent in
  non_adjacent ++ [(la, lb, 0)].

Inductive tag := equal | replace | delete | insert.

Abbreviation Opcode := (tag * nat * nat * nat * nat)%type.

(** The loop of [get_opcodes]; the state is [(i, j)] and [answer]. *)
Fixpoint opcodes_loop (blocks : list Match) (i j : nat)
    (answer : list Opcode) : list Opcode :=
  match blocks with
  | [] => answer
  | (ai, bj, size) :: rest =>
      let answer :=
        if bool_decide (i < ai) && bool_decide (j < bj)
        then answer ++ [(replace, i, ai, j, bj)]
        else if bool_decide (i < ai) then answer ++ [(delete, i, ai, j, bj)]
        else if bool_decide (j < bj) then answer ++ [(insert, i, ai, j, bj)]
        else answer in
      let i := ai + size in
      let j := bj + size in
      let answer :=
        if bool_decide (size ≠ 0) then answer ++ [(equal, ai, i, bj, j)]
        else answer in
      opcodes_loop rest i j answer
  end.

Definition get_opcodes (sm : SequenceMatcher) : list Opcode :=
  opcodes_loop (get_matching_blocks sm) 0 0 [].

End Difflib.

(** ** Standard output *)

(** [print] appends a line to standard output; a computation returns its
    value and the lines it printed. *)
Definition Out (A : Type) : Type := A * list string.

Global Instance Out_ret : MRet Out := λ A x, (x, []).
Global Instance Out_bind : MBind Out := λ A B f m,
  let '(x, o1) := m in let '(y, o2) := f x in (y, o1 ++ o2).
Definition print (line : string) : Out unit := (tt, [line]).

(** ** transcribe_consensus.py *)

Import Difflib.

(** [seq[i1:i2]] for non-negative indices. *)
Definition slice {A} (l : list A) (i1 i2 : nat) : list A :=
  take (i2 - i1) (drop i1 l).

(** One round of the loop over the opcodes in [align_two]. *)
Definition align_op (seq1 seq2 : list pyval)
    (acc : list pyval * list pyval) (op : Opcode) : list pyval * list pyval :=
  let '(aligned1, aligned2) := acc in
  let '(tag, i1, i2, j1, j2) := op in
  match tag with
  | equal => (aligned1 ++ slice seq1 i1 i2, aligned2 ++ slice seq2 j1 j2)
  | replace =>
      let tokens1 := slice seq1 i1 i2 in
      let tokens2 := slice seq2 j1 j2 in
      let L := length tokens1 `max` length tokens2 in
      let tokens1 := tokens1 ++ replicate (L - length tokens1) None in
      let tokens2 := tokens2 ++ replicate (L - length tokens2) None in
      (aligned1 ++ tokens1, aligned2 ++ tokens2)
  | delete =>
      (aligned1 ++ slice seq1 i1 i2, aligned2 ++ replicate (i2 - i1) None)
  | insert =>
      (aligned1 ++ replicate (j2 - j1) None, aligned2 ++ slice seq2 j1 j2)
  end.

Definition align_two (seq1 seq2 : list pyval) : list pyval * list pyval :=
  let sm := Difflib.new seq1 seq2 in
  foldl (align_op seq1 seq2) ([], []) (get_opcodes sm).

(** The line printed at a mismatch. *)
Definition mismatch_line (idx : nat) (t1 t2 : string) : string :=
  "Column " +:+ pretty idx +:+ " mismatch: '" +:+ t1 +:+ "' vs '" +:+ t2
  +:+ "'; choosing '" +:+ t1 +:+ "'".

(** The body of the loop of [consensus_two] at column [idx]. *)
Definition consensus_column (idx : nat) (t1 t2 : pyval)
    (consensus : list pyval) : Out (list pyval) :=
  match t1, t2 with
  | None, None => mret consensus
  | None, _ => mret (consensus ++ [t2])
  | _, None => mret (consensus ++ [t1])
  | Some s1, Some s2 =>
      if bool_decide (s1 = s2) then mret (consensus ++ [t1])
      else
        _ ← print (mismatch_line idx s1 s2);
        mret (consensus ++ [t1])
  end.

(** [for idx, (t1, t2) in enumerate(zip(aligned1, aligned2))], from
    column [idx] on. *)
Fixpoint consensus_loop (idx : nat) (cols : list (pyval * pyval))
    (consensus : list pyval) : Out (list pyval) :=
  match cols with
  | [] => mret consensus
  | (t1, t2) :: rest =>
      consensus ← consensus_column idx t1 t2 consensus;
      consensus_loop (S idx) rest consensus
  end.

Definition consensus_two (seq1 seq2 : list pyval) : Out (list pyval) :=
  let '(aligned1, aligned2) := align_two seq1 seq2 in
  consensus_loop 0 (zip aligned1 aligned2) [].

Definition consensus_three (seq1 seq2 seq3 : list pyval) : Out (list pyval) :=
  _ ← print "Merging first two transcripts...";
  cons12 ← consensus_two seq1 seq2;
  _ ← print "Merging consensus of first two with the third transcript...";
  final_consensus ← consensus_two cons12 seq3;
  mret final_consensus.


(** * Properties *)

(** ** The examples of difflib's documentation *)

Example find_longest_match_doc :
  find_longest_match
    (Difflib.new (Some <$> [" "; "a"; "b"; "c"; "d"])
                 (Some <$> ["a"; "b"; "c"; "d"; " "; "a"; "b"; "c"; "d"]))
    0 5 0 9
  = (0, 4, 5).
Proof. by vm_compute. Qed.

Example get_matching_blocks_doc :
  get_matching_blocks
    (Difflib.new (Some <$> ["a"; "b"; "x"; "c"; "d"])
                 (Some <$> ["a"; "b"; "c"; "d"]))
  = [(0, 0, 2); (3, 2, 2); (5, 4, 0)].
Proof. by vm_compute. Qed.

Example get_opcodes_doc :
  get_opcodes
    (Difflib.new (Some <$> ["q"; "a"; "b"; "x"; "c"; "d"])
                 (Some <$> ["a"; "b"; "y"; "c"; "d"; "f"]))
  = [(delete, 0, 1, 0, 0); (equal, 1, 3, 0, 2); (replace, 3, 4, 2, 3);
     (equal, 4, 6, 3, 5); (insert, 6, 6, 5, 6)].
Proof. by vm_compute. Qed.

(** ** [find_longest_match] stays inside its region *)

Section flm_bounds.
Context (sm : SequenceMatcher) (alo ahi blo bhi : nat).

(** A match lies in the region [a[alo:ahi]], [b[blo:bhi]]; an empty match
    is the initial [(alo, blo, 0)]. *)
Definition in_region (m : Match) : Prop :=
  alo ≤ m.1.1 ∧ blo ≤ m.1.2 ∧
  (m.2 = 0 → m.1.1 = alo ∧ m.1.2 = blo) ∧
  (m.2 ≠ 0 → m.1.1 + m.2 ≤ ahi ∧ m.1.2 + m.2 ≤ bhi).

(** At the start of row [i], [j2len[j]] is the length of a match that ends
    at [a[i-1]] and [b[j]] inside the region. *)
Definition j2len_ok (i : nat) (j2len : gmap nat nat) : Prop :=
  ∀ j v, j2len !! j = Some v → v + alo ≤ i ∧ v + blo ≤ j + 1.

Lemma j2lenget_bound i j2len j :
  j2len_ok i j2len → alo ≤ i → blo ≤ j →
  j2lenget j2len j + alo ≤ i ∧ j2lenget j2len j + blo ≤ j.
Proof.
  intros Hok Hi Hj. destruct j as [|j']; simpl; [lia|].
  destruct (j2len !! j') as [v|] eqn:Hv; simpl; [|lia].
  destruct (Hok _ _ Hv). lia.
Qed.

(** No index computed by the inner loop underflows: [k ≤ i + 1] and
    [k ≤ j + 1] where the code forms [i-k+1] and [j-k+1]. *)
Lemma scan_best_no_underflow i j2len j :
  j2len_ok i j2len → alo ≤ i → blo ≤ j →
  j2lenget j2len j + 1 ≤ i + 1 ∧ j2lenget j2len j + 1 ≤ j + 1.
Proof.
  intros Hok Hi Hj. destruct (j2lenget_bound i j2len j Hok Hi Hj). lia.
Qed.

Lemma scan_row_in_region i j2len js newj2len best :
  alo ≤ i → i < ahi → j2len_ok i j2len → j2len_ok (S i) newj2len →
  in_region best →
  j2len_ok (S i) (scan_row blo bhi i j2len js newj2len best).1 ∧
  in_region (scan_row blo bhi i j2len js newj2len best).2.
Proof.
  intros Hi Hi' Hok. revert newj2len best.
  induction js as [|j js IH]; intros newj2len best Hnew Hbest; simpl; [done|].
  case_bool_decide; [by apply IH|].
  case_bool_decide; [done|].
  assert (blo ≤ j) as Hj by lia.
  destruct (j2lenget_bound i j2len j Hok Hi Hj) as [Ha Hb].
  generalize dependent (j2lenget j2len j). intros k0 Ha Hb.
  apply IH.
  - intros j' v. rewrite lookup_insert_Some. intros [[<- <-]|[_ Hv]].
    + lia.
    + by apply Hnew.
  - case_bool_decide; [|done].
    repeat split; simpl in *; lia.
Qed.

Lemma scan_rows_in_region n i j2len best :
  alo ≤ i → i + n ≤ ahi → j2len_ok i j2len → in_region best →
  in_region (scan_rows sm blo bhi (seq i n) j2len best).
Proof.
  revert i j2len best.
  induction n as [|n IH]; intros i j2len best Hi Hn Hok Hbest; simpl; [done|].
  assert (j2len_ok (S i) ∅) as Hempty.
  { intros j v. by rewrite lookup_empty. }
  assert (i < ahi) as Hlt by lia.
  pose proof (scan_row_in_region i j2len
    (default [] (sm_a sm !! i ≫= λ x, b2j sm !! x)) ∅ best
    Hi Hlt Hok Hempty Hbest) as [Hok' Hbest'].
  destruct (scan_row _ _ _ _ _ _ _) as [newj2len best'].
  apply IH; [lia|lia|done|done].
Qed.

Lemma extend_back_in_region junk besti bestj bestsize :
  in_region (besti, bestj, bestsize) →
  in_region (extend_back sm alo blo junk besti bestj bestsize).
Proof.
  revert bestj bestsize.
  induction besti as [|i' IH]; intros bestj bestsize Hin; simpl; [done|].
  destruct (_ && _) eqn:Hguard; [|done].
  rewrite !andb_true_iff, !bool_decide_eq_true in Hguard.
  destruct Hguard as [[[Hgi Hgj] _] _].
  apply IH. unfold in_region in *; simpl in *. lia.
Qed.

Lemma extend_fwd_in_region junk n besti bestj bestsize :
  in_region (besti, bestj, bestsize) →
  in_region (extend_fwd sm ahi bhi junk n besti bestj bestsize).
Proof.
  revert bestsize.
  induction n as [|n IH]; intros bestsize Hin; simpl; [done|].
  destruct (_ && _) eqn:Hguard; [|done].
  rewrite !andb_true_iff, !bool_decide_eq_true in Hguard.
  destruct Hguard as [[[Hgi Hgj] _] _].
  apply IH. unfold in_region in *; simpl in *. lia.
Qed.

Lemma extend_in_region junk m :
  in_region m → in_region (extend sm alo ahi blo bhi junk m).
Proof.
  intros Hin. destruct m as [[besti bestj] bestsize]. unfold extend.
  pose proof (extend_back_in_region junk besti bestj bestsize Hin) as Hb.
  destruct (extend_back _ _ _ _ _ _ _) as [[i j] k].
  by apply extend_fwd_in_region.
Qed.

Lemma find_longest_match_in_region :
  in_region (find_longest_match sm alo ahi blo bhi).
Proof.
  unfold find_longest_match. do 2 apply extend_in_region.
  destruct (decide (alo ≤ ahi)) as [Hle|Hgt].
  - apply scan_rows_in_region; [lia|lia| |].
    + intros j v. by rewrite lookup_empty.
    + unfold in_region; simpl; lia.
  - replace (ahi - alo) with 0 by lia. simpl.
    unfold in_region; simpl; lia.
Qed.
End flm_bounds.

(** ** Lists whose elements are pairwise related *)

Fixpoint pairwise {A} (R : relation A) (l : list A) : Prop :=
  match l with
  | [] => True
  | x :: l => Forall (R x) l ∧ pairwise R l
  end.

Lemma pairwise_app {A} (R : relation A) l1 l2 :
  pairwise R (l1 ++ l2) ↔
  pairwise R l1 ∧ pairwise R l2 ∧ Forall (λ x, Forall (R x) l2) l1.
Proof.
  induction l1 as [|x l1 IH]; simpl.
  - rewrite Forall_nil. tauto.
  - rewrite Forall_app, Forall_cons, IH. tauto.
Qed.

Lemma pairwise_Permutation {A} (R : relation A) `{!Symmetric R} l l' :
  l ≡ₚ l' → pairwise R l → pairwise R l'.
Proof.
  induction 1 as [|x l l' Hp IH|x y l|l l' l'' _ IH1 _ IH2]; simpl.
  - done.
  - intros [Hx Hl]. split; [|by apply IH].
    by apply (Permutation_Forall Hp).
  - rewrite !Forall_cons. intros [[Hyx Hy] [Hx Hl]].
    repeat split; done.
  - intros. by apply IH2, IH1.
Qed.

(** ** The blocks found by [get_matching_blocks] *)

Definition block_region (m : Match) : Region :=
  (m.1.1, m.1.1 + m.2, m.1.2, m.1.2 + m.2).

(** [r1] ends, in both sequences, where [r2] starts or earlier. *)
Definition before (r1 r2 : Region) : Prop :=
  r1.1.1.2 ≤ r2.1.1.1 ∧ r1.2 ≤ r2.1.2.

Definition apart (r1 r2 : Region) : Prop := before r1 r2 ∨ before r2 r1.

Global Instance apart_sym : Symmetric apart.
Proof. intros r1 r2. unfold apart. tauto. Qed.

Definition inside (r s : Region) : Prop :=
  r.1.1.1 ≤ s.1.1.1 ∧ s.1.1.2 ≤ r.1.1.2 ∧ r.1.2 ≤ s.1.2 ∧ s.2 ≤ r.2.

Lemma apart_inside r s z : inside r s → apart r z → apart s z.
Proof.
  destruct r as [[[??]?]?], s as [[[??]?]?], z as [[[??]?]?].
  unfold inside, apart, before; simpl. lia.
Qed.

Definition block_ok (la lb : nat) (m : Match) : Prop :=
  m.2 ≠ 0 ∧ m.1.1 + m.2 ≤ la ∧ m.1.2 + m.2 ≤ lb.

Definition blocks_ok (la lb : nat) (blocks : list Match) : Prop :=
  pairwise apart (block_region <$> blocks) ∧ Forall (block_ok la lb) blocks.

Definition loop_inv (la lb : nat) (queue : list Region)
    (blocks : list Match) : Prop :=
  pairwise apart (queue ++ (block_region <$> blocks)) ∧
  Forall (λ r, r.1.1.2 ≤ la ∧ r.2 ≤ lb) queue ∧
  Forall (block_ok la lb) blocks.

Lemma loop_inv_step la lb r queue blocks news x :
  loop_inv la lb (r :: queue) blocks →
  Forall (inside r) (block_region x :: news) →
  pairwise apart (news ++ [block_region x]) →
  x.2 ≠ 0 →
  loop_inv la lb (news ++ queue) (blocks ++ [x]).
Proof.
  intros (Hpw & Hq & Hb) Hin Hnews Hx.
  apply Forall_cons in Hq as [Hr Hq]. apply Forall_cons in Hin as [Hxr Hin].
  simpl in Hpw. destruct Hpw as [Hrz Hpw].
  split; [|split].
  - rewrite fmap_app. simpl.
    eapply (pairwise_Permutation _
      ((news ++ [block_region x]) ++ (queue ++ (block_region <$> blocks)))).
    { rewrite <-!(assoc_L (++)). apply Permutation_app_head.
      rewrite (assoc_L (++) queue). apply Permutation_app_comm. }
    apply pairwise_app. split; [done|]. split; [done|].
    apply Forall_app. split.
    + eapply Forall_impl; [exact Hin|]. intros s Hs. simpl in Hs.
      eapply Forall_impl; [exact Hrz|]. intros z Hz. by eapply apart_inside.
    + apply Forall_singleton.
      eapply Forall_impl; [exact Hrz|]. intros z Hz. by eapply apart_inside.
  - apply Forall_app. split; [|done].
    eapply Forall_impl; [exact Hin|]. intros s Hs.
    destruct r as [[[??]?]?], s as [[[??]?]?]. unfold inside in Hs.
    simpl in *. lia.
  - apply Forall_app. split; [done|]. apply Forall_singleton.
    destruct r as [[[??]?]?], x as [[??]?].
    unfold inside, block_region, block_ok in *. simpl in *. lia.
Qed.

Lemma loop_inv_pop la lb r queue blocks :
  loop_inv la lb (r :: queue) blocks → loop_inv la lb queue blocks.
Proof.
  intros (Hpw & Hq & Hb). apply Forall_cons in Hq as [_ Hq].
  simpl in Hpw. by destruct Hpw.
Qed.

Lemma loop_inv_blocks la lb queue blocks :
  loop_inv la lb queue blocks → blocks_ok la lb blocks.
Proof.
  intros (Hpw & _ & Hb). apply pairwise_app in Hpw as (_ & Hpw & _). done.
Qed.

Lemma matching_loop_ok sm la lb fuel queue blocks :
  loop_inv la lb queue blocks →
  blocks_ok la lb (matching_loop sm fuel queue blocks).
Proof.
  revert queue blocks.
  induction fuel as [|fuel IH]; intros queue blocks Hinv; simpl.
  { by eapply loop_inv_blocks. }
  destruct queue as [|[[[alo ahi] blo] bhi] queue].
  { by eapply loop_inv_blocks. }
  pose proof (find_longest_match_in_region sm alo ahi blo bhi) as Hreg.
  destruct (find_longest_match sm alo ahi blo bhi) as [[i j] k].
  destruct Hreg as (Hi & Hj & _ & Hk). simpl in *.
  case_bool_decide as Hk0; [|by eapply IH, loop_inv_pop].
  destruct (Hk Hk0) as [Hik Hjk].
  set (left := (alo, i, blo, j) : Region).
  set (right := (i + k, ahi, j + k, bhi) : Region).
  assert (inside (alo, ahi, blo, bhi) (block_region (i, j, k))) as Hx
    by (unfold inside; simpl; lia).
  assert (inside (alo, ahi, blo, bhi) left) as Hl
    by (unfold inside; simpl; lia).
  assert (inside (alo, ahi, blo, bhi) right) as Hr
    by (unfold inside; simpl; lia).
  assert (apart left (block_region (i, j, k))) as Hlx
    by (left; unfold before; simpl; lia).
  assert (apart right (block_region (i, j, k))) as Hrx
    by (right; unfold before; simpl; lia).
  assert (apart right left) as Hrl
    by (right; unfold before; simpl; lia).
  apply IH.
  destruct (bool_decide (alo < i) && bool_decide (blo < j));
    destruct (bool_decide (i + k < ahi) && bool_decide (j + k < bhi)).
  - apply (loop_inv_step la lb (alo, ahi, blo, bhi) queue blocks [right; left] (i, j, k));
      simpl; rewrite ?Forall_cons, ?Forall_nil; tauto.
  - apply (loop_inv_step la lb (alo, ahi, blo, bhi) queue blocks [left] (i, j, k));
      simpl; rewrite ?Forall_cons, ?Forall_nil; tauto.
  - apply (loop_inv_step la lb (alo, ahi, blo, bhi) queue blocks [right] (i, j, k));
      simpl; rewrite ?Forall_cons, ?Forall_nil; tauto.
  - apply (loop_inv_step la lb (alo, ahi, blo, bhi) queue blocks [] (i, j, k));
      simpl; rewrite ?Forall_cons, ?Forall_nil; tauto.
Qed.

(** The fuel of [get_matching_blocks] is enough: each round removes a
    region from the queue and adds regions that are smaller in total. *)
Definition region_cost (r : Region) : nat := 2 * (r.1.1.2 - r.1.1.1) + 1.

Definition queue_cost (queue : list Region) : nat :=
  sum_list (region_cost <$> queue).

Lemma queue_cost_cons alo ahi blo bhi queue :
  queue_cost ((alo, ahi, blo, bhi) :: queue)
  = 2 * (ahi - alo) + 1 + queue_cost queue.
Proof. reflexivity. Qed.

Lemma matching_loop_fuel sm fuel extra queue blocks :
  queue_cost queue ≤ fuel →
  matching_loop sm (fuel + extra) queue blocks
  = matching_loop sm fuel queue blocks.
Proof.
  revert queue blocks.
  induction fuel as [|fuel IH]; intros queue blocks Hcost.
  { destruct queue as [|[[[alo ahi] blo] bhi] queue].
    - by destruct extra.
    - rewrite queue_cost_cons in Hcost. lia. }
  simpl. destruct queue as [|[[[alo ahi] blo] bhi] queue]; [done|].
  rewrite queue_cost_cons in Hcost.
  pose proof (find_longest_match_in_region sm alo ahi blo bhi) as Hreg.
  destruct (find_longest_match sm alo ahi blo bhi) as [[i j] k].
  destruct Hreg as (Hi & Hj & _ & Hk). cbn [fst snd] in *.
  case_bool_decide as Hk0; [|apply IH; lia].
  destruct (Hk Hk0) as [Hik Hjk].
  apply IH.
  destruct (bool_decide (alo < i) && bool_decide (blo < j));
    destruct (bool_decide (i + k < ahi) && bool_decide (j + k < bhi));
    rewrite ?queue_cost_cons; lia.
Qed.

Lemma get_matching_blocks_fuel sm extra :
  let la := length (sm_a sm) in
  let lb := length (sm_b sm) in
  matching_loop sm (2 * la + 1 + extra) [(0, la, 0, lb)] []
  = matching_loop sm (2 * la + 1) [(0, la, 0, lb)] [].
Proof.
  intros la lb. apply matching_loop_fuel.
  rewrite queue_cost_cons. unfold queue_cost. simpl. lia.
Qed.

(** ** Sorting the blocks *)

Global Instance match_le_total : Total match_le.
Proof.
  intros [[i1 j1] k1] [[i2 j2] k2]. unfold match_le; simpl. lia.
Qed.

Global Instance match_le_trans : Transitive match_le.
Proof.
  intros [[i1 j1] k1] [[i2 j2] k2] [[i3 j3] k3]. unfold match_le; simpl. lia.
Qed.

Lemma blocks_ok_Permutation la lb l l' :
  l ≡ₚ l' → blocks_ok la lb l → blocks_ok la lb l'.
Proof.
  intros Hp [Hpw Hall]. split.
  - eapply pairwise_Permutation; [apply _| |exact Hpw].
    by apply fmap_Permutation.
  - by apply (Permutation_Forall Hp).
Qed.

(** A list of blocks runs from [(i, j)] to [(la, lb)]: every block starts,
    in both sequences, at or after the end of the one before. *)
Fixpoint chain (la lb i j : nat) (blocks : list Match) : Prop :=
  match blocks with
  | [] => i ≤ la ∧ j ≤ lb
  | (ai, bj, size) :: rest =>
      i ≤ ai ∧ j ≤ bj ∧ chain la lb (ai + size) (bj + size) rest
  end.

Lemma chain_mono la lb i j i' j' blocks :
  i ≤ i' → j ≤ j' → chain la lb i' j' blocks → chain la lb i j blocks.
Proof.
  destruct blocks as [|[[ai bj] size] rest]; simpl; [lia|].
  intros ?? (?&?&?). repeat split; [lia|lia|done].
Qed.

Lemma sorted_chain la lb blocks i j :
  blocks_ok la lb blocks → StronglySorted match_le blocks →
  Forall (λ m, i ≤ m.1.1 ∧ j ≤ m.1.2) blocks → i ≤ la → j ≤ lb →
  chain la lb i j blocks.
Proof.
  revert i j.
  induction blocks as [|[[ai bj] size] rest IH]; intros i j Hok Hs Hlo Hi Hj.
  { done. }
  destruct Hok as [Hpw Hall]. simpl in Hpw. destruct Hpw as [Hx Hpw].
  apply Forall_cons in Hall as [(Hsz & Ha & Hb) Hall].
  apply Forall_cons in Hlo as [[Hia Hjb] _].
  apply StronglySorted_inv in Hs as [Hs Hle]. simpl in *.
  repeat split; [done|done|].
  apply IH; [by split|done| |lia|lia].
  rewrite Forall_fmap in Hx.
  rewrite Forall_forall in Hx, Hle, Hall. apply Forall_forall.
  intros [[i2 j2] k2] Hin.
  specialize (Hx _ Hin). specialize (Hle _ Hin). specialize (Hall _ Hin).
  unfold apart, before, block_region, match_le, block_ok in *; simpl in *.
  lia.
Qed.

Lemma matching_blocks_sorted_chain sm :
  let la := length (sm_a sm) in
  let lb := length (sm_b sm) in
  chain la lb 0 0
    (merge_sort match_le (matching_loop sm (2 * la + 1) [(0, la, 0, lb)] [])).
Proof.
  intros la lb.
  assert (blocks_ok la lb
    (matching_loop sm (2 * la + 1) [(0, la, 0, lb)] [])) as Hok.
  { apply matching_loop_ok. split; [|split].
    - simpl. by split.
    - apply Forall_singleton. done.
    - done. }
  apply sorted_chain; [| | |lia|lia].
  - eapply blocks_ok_Permutation; [|exact Hok].
    symmetry. apply merge_sort_Permutation.
  - apply StronglySorted_merge_sort; apply _.
  - apply Forall_forall. intros; lia.
Qed.

(** ** Collapsing adjacent blocks *)

Lemma chain_merge la lb i0 j0 acc i1 j1 k1 k2 rest :
  chain la lb i0 j0 (acc ++ (i1, j1, k1) :: (i1 + k1, j1 + k1, k2) :: rest) →
  chain la lb i0 j0 (acc ++ (i1, j1, k1 + k2) :: rest).
Proof.
  revert i0 j0. induction acc as [|[[ai bj] size] acc IH]; intros i0 j0; simpl.
  - rewrite !Nat.add_assoc. tauto.
  - intros (?&?&?). auto.
Qed.

Lemma chain_drop la lb i0 j0 acc i1 j1 rest :
  chain la lb i0 j0 (acc ++ (i1, j1, 0) :: rest) →
  chain la lb i0 j0 (acc ++ rest).
Proof.
  revert i0 j0. induction acc as [|[[ai bj] size] acc IH]; intros i0 j0; simpl.
  - rewrite !Nat.add_0_r. intros (?&?&?). by eapply chain_mono.
  - intros (?&?&?). auto.
Qed.

Lemma collapse_chain la lb i0 j0 blocks cur acc :
  chain la lb i0 j0 (acc ++ cur :: blocks) →
  chain la lb i0 j0 ((collapse blocks cur acc).2 ++ [(collapse blocks cur acc).1]).
Proof.
  revert cur acc.
  induction blocks as [|[[i2 j2] k2] rest IH]; intros [[i1 j1] k1] acc Hc;
    simpl; [done|].
  destruct (_ && _) eqn:Hadj.
  - rewrite andb_true_iff, !bool_decide_eq_true in Hadj.
    destruct Hadj as [<- <-]. by apply IH, chain_merge.
  - clear Hadj. case_bool_decide as Hk1.
    + apply IH. by rewrite <-(assoc_L (++)).
    + apply IH. subst k1. by eapply chain_drop.
Qed.

Lemma get_matching_blocks_chain sm :
  ∃ body, get_matching_blocks sm
          = body ++ [(length (sm_a sm), length (sm_b sm), 0)] ∧
          chain (length (sm_a sm)) (length (sm_b sm)) 0 0 body.
Proof.
  unfold get_matching_blocks.
  pose proof (matching_blocks_sorted_chain sm) as Hc. cbv zeta in Hc.
  cbv zeta.
  set (la := length (sm_a sm)) in *. set (lb := length (sm_b sm)) in *.
  set (sorted := merge_sort match_le _) in *.
  assert (chain la lb 0 0 ([] ++ (0, 0, 0) :: sorted)) as Hc'
    by (simpl; done).
  apply collapse_chain in Hc'.
  destruct (collapse _ _ _) as [[[i1 j1] k1] non_adjacent]. simpl in Hc'.
  case_bool_decide as Hk1.
  - by eexists.
  - eexists; split; [done|]. subst k1.
    rewrite <-(app_nil_r non_adjacent). by eapply chain_drop.
Qed.

(** ** The opcodes tile both sequences *)

(** [tiling la lb i j ops]: the opcodes [ops] follow one another from
    [(i, j)] to [(la, lb)], each with the shape its tag promises. *)
Inductive tiling (la lb : nat) : nat → nat → list Opcode → Prop :=
  | tiling_nil : tiling la lb la lb []
  | tiling_equal i j n ops :
      n ≠ 0 → tiling la lb (i + n) (j + n) ops →
      tiling la lb i j ((equal, i, i + n, j, j + n) :: ops)
  | tiling_replace i i2 j j2 ops :
      i < i2 → j < j2 → tiling la lb i2 j2 ops →
      tiling la lb i j ((replace, i, i2, j, j2) :: ops)
  | tiling_delete i i2 j ops :
      i < i2 → tiling la lb i2 j ops →
      tiling la lb i j ((delete, i, i2, j, j) :: ops)
  | tiling_insert i j j2 ops :
      j < j2 → tiling la lb i j2 ops →
      tiling la lb i j ((insert, i, i, j, j2) :: ops).

Lemma tiling_bounds la lb i j ops : tiling la lb i j ops → i ≤ la ∧ j ≤ lb.
Proof. induction 1; lia. Qed.

Lemma opcodes_loop_app blocks i j answer :
  opcodes_loop blocks i j answer = answer ++ opcodes_loop blocks i j [].
Proof.
  revert i j answer.
  induction blocks as [|[[ai bj] size] rest IH]; intros i j answer; simpl.
  { by rewrite app_nil_r. }
  rewrite IH. symmetry. rewrite IH. symmetry.
  repeat (case_bool_decide; simpl); by rewrite <-?(assoc_L (++)), ?app_nil_r.
Qed.

(** The gap between position [(i, j)] and a block that starts at
    [(ai, bj)] becomes one opcode, or none. *)
Lemma tiling_gap la lb i j ai bj ops :
  i ≤ ai → j ≤ bj → tiling la lb ai bj ops →
  tiling la lb i j
    ((if bool_decide (i < ai) && bool_decide (j < bj)
      then [(replace, i, ai, j, bj)]
      else if bool_decide (i < ai) then [(delete, i, ai, j, bj)]
      else if bool_decide (j < bj) then [(insert, i, ai, j, bj)]
      else []) ++ ops).
Proof.
  intros Hi Hj Hops.
  repeat (case_bool_decide; simpl).
  - by constructor.
  - assert (bj = j) as -> by lia. by constructor.
  - assert (ai = i) as -> by lia. by constructor.
  - assert (ai = i) as -> by lia. assert (bj = j) as -> by lia. done.
Qed.

Lemma opcodes_loop_tiling la lb body i j :
  chain la lb i j body →
  tiling la lb i j (opcodes_loop (body ++ [(la, lb, 0)]) i j []).
Proof.
  revert i j.
  induction body as [|[[ai bj] size] rest IH]; intros i j; simpl.
  - intros [Hi Hj].
    pose proof (tiling_gap la lb i j la lb [] Hi Hj (tiling_nil la lb)) as Hg.
    rewrite app_nil_r in Hg.
    repeat (case_bool_decide; simpl in * ); done.
  - intros (Hi & Hj & Hc). rewrite opcodes_loop_app.
    specialize (IH _ _ Hc).
    assert (tiling la lb ai bj
      ((if bool_decide (size ≠ 0)
        then [(equal, ai, ai + size, bj, bj + size)] else [])
       ++ opcodes_loop (rest ++ [(la, lb, 0)]) (ai + size) (bj + size) []))
      as Heq.
    { case_bool_decide as Hs; simpl.
      - by constructor.
      - subst size. rewrite !Nat.add_0_r in IH |- *. exact IH. }
    pose proof (tiling_gap la lb i j ai bj _ Hi Hj Heq) as Hg.
    repeat (case_bool_decide; simpl in * ); done.
Qed.

Theorem get_opcodes_tiling sm :
  tiling (length (sm_a sm)) (length (sm_b sm)) 0 0 (get_opcodes sm).
Proof.
  unfold get_opcodes.
  destruct (get_matching_blocks_chain sm) as (body & -> & Hc).
  by apply opcodes_loop_tiling.
Qed.

(** ** [align_two] *)

(** A sequence holds tokens only, no [None]. *)
Definition gap_free (l : list pyval) : Prop := Forall is_Some l.

(** The tokens of an aligned sequence, read in order. *)
Definition remove_gaps (l : list pyval) : list pyval := filter is_Some l.

Lemma slice_length {A} (l : list A) i1 i2 :
  i2 ≤ length l → length (slice l i1 i2) = i2 - i1.
Proof. intros. unfold slice. rewrite length_take, length_drop. lia. Qed.

Lemma slice_drop {A} (l : list A) i1 i2 :
  i1 ≤ i2 → slice l i1 i2 ++ drop i2 l = drop i1 l.
Proof.
  intros. unfold slice. replace i2 with (i1 + (i2 - i1)) at 2 by lia.
  by rewrite <-drop_drop, take_drop.
Qed.

Lemma slice_to_end {A} (l : list A) i : slice l i (length l) = drop i l.
Proof. unfold slice. apply take_ge. rewrite length_drop. lia. Qed.

Lemma slice_empty {A} (l : list A) i : slice l i i = [].
Proof. unfold slice. by rewrite Nat.sub_diag. Qed.

Lemma gap_free_slice l i1 i2 : gap_free l → gap_free (slice l i1 i2).
Proof. intros. by apply Forall_take, Forall_drop. Qed.

Lemma remove_gaps_app l1 l2 :
  remove_gaps (l1 ++ l2) = remove_gaps l1 ++ remove_gaps l2.
Proof. apply filter_app. Qed.

Lemma remove_gaps_replicate n : remove_gaps (replicate n None) = [].
Proof.
  induction n as [|n IH]; [done|]. simpl. unfold remove_gaps in *.
  rewrite filter_cons_False; [done|]. by intros [??].
Qed.

Lemma remove_gaps_gap_free l : gap_free l → remove_gaps l = l.
Proof.
  induction 1 as [|x l Hx _ IH]; [done|]. unfold remove_gaps in *.
  by rewrite filter_cons_True, IH.
Qed.

(** A column of the alignment holds a token on one side at least. *)
Definition has_token (c : pyval * pyval) : Prop := ¬ (c.1 = None ∧ c.2 = None).

Lemma has_token_zip_l l1 l2 : gap_free l1 → Forall has_token (zip l1 l2).
Proof.
  intros Hl. revert l2. induction Hl as [|x l1 [s ->] _ IH]; intros [|y l2];
    simpl; try done.
  constructor; [|done]. by intros [? _].
Qed.

Lemma has_token_zip_r l1 l2 : gap_free l2 → Forall has_token (zip l1 l2).
Proof.
  intros Hl. revert l1. induction Hl as [|y l2 [s ->] _ IH]; intros [|x l1];
    simpl; try done.
  constructor; [|done]. by intros [_ ?].
Qed.

(** What one opcode appends: the two appended blocks have the same
    length, their tokens are those of the two slices, and (for gap-free
    inputs) no column is a gap on both sides. *)
Record aligned_block (seq1 seq2 : list pyval) (i1 i2 j1 j2 : nat)
    (t1 t2 : list pyval) : Prop := {
  ab_length : length t1 = length t2;
  ab_tokens1 : remove_gaps t1 = remove_gaps (slice seq1 i1 i2);
  ab_tokens2 : remove_gaps t2 = remove_gaps (slice seq2 j1 j2);
  ab_columns : gap_free seq1 → gap_free seq2 → Forall has_token (zip t1 t2)
}.

Lemma align_op_equal seq1 seq2 i j n :
  i + n ≤ length seq1 → j + n ≤ length seq2 →
  aligned_block seq1 seq2 i (i + n) j (j + n)
    (slice seq1 i (i + n)) (slice seq2 j (j + n)).
Proof.
  intros Hi Hj. split; try done.
  - rewrite !slice_length by done. lia.
  - intros H1 _. by apply has_token_zip_l, gap_free_slice.
Qed.

Lemma align_op_replace seq1 seq2 i1 i2 j1 j2 :
  let tokens1 := slice seq1 i1 i2 in
  let tokens2 := slice seq2 j1 j2 in
  let L := length tokens1 `max` length tokens2 in
  aligned_block seq1 seq2 i1 i2 j1 j2
    (tokens1 ++ replicate (L - length tokens1) None)
    (tokens2 ++ replicate (L - length tokens2) None).
Proof.
  intros tokens1 tokens2 L. split.
  - rewrite !length_app, !length_replicate. lia.
  - by rewrite remove_gaps_app, remove_gaps_replicate, app_nil_r.
  - by rewrite remove_gaps_app, remove_gaps_replicate, app_nil_r.
  - intros H1 H2. destruct (decide (length tokens1 ≤ length tokens2)).
    + replace (L - length tokens2) with 0 by lia. simpl. rewrite app_nil_r.
      by apply has_token_zip_r, gap_free_slice.
    + replace (L - length tokens1) with 0 by lia. simpl. rewrite app_nil_r.
      by apply has_token_zip_l, gap_free_slice.
Qed.

Lemma align_op_delete seq1 seq2 i1 i2 j :
  i2 ≤ length seq1 →
  aligned_block seq1 seq2 i1 i2 j j
    (slice seq1 i1 i2) (replicate (i2 - i1) None).
Proof.
  intros Hi. split.
  - by rewrite slice_length, length_replicate.
  - done.
  - by rewrite remove_gaps_replicate, slice_empty.
  - intros H1 _. by apply has_token_zip_l, gap_free_slice.
Qed.

Lemma align_op_insert seq1 seq2 i j1 j2 :
  j2 ≤ length seq2 →
  aligned_block seq1 seq2 i i j1 j2
    (replicate (j2 - j1) None) (slice seq2 j1 j2).
Proof.
  intros Hj. split.
  - by rewrite slice_length, length_replicate.
  - by rewrite remove_gaps_replicate, slice_empty.
  - done.
  - intros _ H2. by apply has_token_zip_r, gap_free_slice.
Qed.

(** After one round of the loop, what the rest appends is given by the
    induction hypothesis [IH]; the round's own blocks go in front. *)
Ltac append_block IH :=
  let t1 := fresh "t1" in
  let t2 := fresh "t2" in
  let Hblock := fresh "Hblock" in
  match goal with
  | |- ∃ _ _, foldl _ (?acc1, ?acc2) _ = _ ∧ _ =>
      destruct (IH acc1 acc2) as (t1 & t2 & -> & Hblock)
  end;
  match goal with
  | |- ∃ _ _, ((_ ++ ?u1) ++ _, (_ ++ ?u2) ++ _) = _ ∧ _ =>
      exists (u1 ++ t1), (u2 ++ t2)
  end;
  split; [by rewrite !(assoc_L (++))|].

(** The loop of [align_two] over a tiling that starts at [(i, j)] appends
    an alignment of [seq1[i:]] and [seq2[j:]]. *)
Lemma align_tiling seq1 seq2 i j ops :
  tiling (length seq1) (length seq2) i j ops →
  ∀ aligned1 aligned2, ∃ t1 t2,
    foldl (align_op seq1 seq2) (aligned1, aligned2) ops
    = (aligned1 ++ t1, aligned2 ++ t2) ∧
    aligned_block seq1 seq2 i (length seq1) j (length seq2) t1 t2.
Proof.
  assert (∀ i1 i2 j1 j2 u1 u2 t1 t2,
    i1 ≤ i2 → j1 ≤ j2 →
    aligned_block seq1 seq2 i1 i2 j1 j2 u1 u2 →
    aligned_block seq1 seq2 i2 (length seq1) j2 (length seq2) t1 t2 →
    i2 ≤ length seq1 → j2 ≤ length seq2 →
    aligned_block seq1 seq2 i1 (length seq1) j1 (length seq2)
      (u1 ++ t1) (u2 ++ t2)) as Hcat.
  { intros i1 i2 j1 j2 u1 u2 t1 t2 Hi Hj [Hl H1 H2 Hc] [Hl' H1' H2' Hc'] ??.
    split.
    - rewrite !length_app. lia.
    - rewrite remove_gaps_app, H1, H1', <-remove_gaps_app.
      f_equal. rewrite !slice_to_end. by apply slice_drop.
    - rewrite remove_gaps_app, H2, H2', <-remove_gaps_app.
      f_equal. rewrite !slice_to_end. by apply slice_drop.
    - intros G1 G2. rewrite (zip_with_app pair u1 t1 u2 t2 Hl).
      apply Forall_app. auto. }
  induction 1 as [|i j n ops Hn Hops IH|i i2 j j2 ops Hi Hj Hops IH
                  |i i2 j ops Hi Hops IH|i j j2 ops Hj Hops IH];
    intros aligned1 aligned2; simpl.
  - exists [], []. rewrite !app_nil_r. split; [done|].
    split; rewrite ?slice_empty; done.
  - destruct (tiling_bounds _ _ _ _ _ Hops) as [Ha Hb]. append_block IH.
    eapply (Hcat i (i + n) j (j + n)); [lia|lia| |done|done|done].
    by apply align_op_equal.
  - destruct (tiling_bounds _ _ _ _ _ Hops) as [Ha Hb]. append_block IH.
    eapply (Hcat i i2 j j2); [lia|lia| |done|done|done].
    apply align_op_replace.
  - destruct (tiling_bounds _ _ _ _ _ Hops) as [Ha Hb]. append_block IH.
    eapply (Hcat i i2 j j); [lia|lia| |done|done|done].
    by apply align_op_delete.
  - destruct (tiling_bounds _ _ _ _ _ Hops) as [Ha Hb]. append_block IH.
    eapply (Hcat i i j j2); [lia|lia| |done|done|done].
    by apply align_op_insert.
Qed.

Lemma align_two_block seq1 seq2 :
  aligned_block seq1 seq2 0 (length seq1) 0 (length seq2)
    (align_two seq1 seq2).1 (align_two seq1 seq2).2.
Proof.
  unfold align_two.
  destruct (align_tiling seq1 seq2 0 0 (get_opcodes (Difflib.new seq1 seq2))
              (get_opcodes_tiling (Difflib.new seq1 seq2)) [] [])
    as (t1 & t2 & -> & Hblock).
  done.
Qed.

Lemma align_two_length seq1 seq2 :
  length (align_two seq1 seq2).1 = length (align_two seq1 seq2).2.
Proof. apply (ab_length _ _ _ _ _ _ _ _ (align_two_block seq1 seq2)). Qed.

Lemma align_two_tokens seq1 seq2 :
  remove_gaps (align_two seq1 seq2).1 = remove_gaps seq1 ∧
  remove_gaps (align_two seq1 seq2).2 = remove_gaps seq2.
Proof.
  destruct (align_two_block seq1 seq2) as [_ H1 H2 _].
  by rewrite slice_to_end, drop_0 in H1, H2.
Qed.

(** ** The loop of [consensus_two] *)

(** The token a column contributes, if any. *)
Definition column_token (c : pyval * pyval) : option pyval :=
  match c with
  | (None, None) => None
  | (None, t2) => Some t2
  | (t1, _) => Some t1
  end.

(** The lines a column prints. *)
Definition column_lines (idx : nat) (c : pyval * pyval) : list string :=
  match c with
  | (Some s1, Some s2) =>
      if bool_decide (s1 = s2) then [] else [mismatch_line idx s1 s2]
  | _ => []
  end.

Fixpoint loop_lines (idx : nat) (cols : list (pyval * pyval)) : list string :=
  match cols with
  | [] => []
  | c :: rest => column_lines idx c ++ loop_lines (S idx) rest
  end.

Lemma consensus_column_spec idx t1 t2 consensus :
  consensus_column idx t1 t2 consensus
  = (consensus ++ option_list (column_token (t1, t2)),
     column_lines idx (t1, t2)).
Proof.
  destruct t1 as [s1|], t2 as [s2|]; simpl; try done.
  - by case_bool_decide.
  - by rewrite app_nil_r.
Qed.

Lemma omap_column_token_cons c cols :
  omap column_token (c :: cols)
  = option_list (column_token c) ++ omap column_token cols.
Proof. simpl. by destruct (column_token c). Qed.

Lemma consensus_loop_spec idx cols consensus :
  consensus_loop idx cols consensus
  = (consensus ++ omap column_token cols, loop_lines idx cols).
Proof.
  revert idx consensus.
  induction cols as [|[t1 t2] rest IH]; intros idx consensus.
  { simpl. by rewrite app_nil_r. }
  rewrite omap_column_token_cons. cbn [consensus_loop loop_lines].
  rewrite consensus_column_spec. unfold mbind, Out_bind. rewrite IH.
  by rewrite (assoc_L (++)).
Qed.

Lemma loop_lines_app idx l1 l2 :
  loop_lines idx (l1 ++ l2)
  = loop_lines idx l1 ++ loop_lines (idx + length l1) l2.
Proof.
  revert idx. induction l1 as [|c l1 IH]; intros idx; simpl.
  - by rewrite Nat.add_0_r.
  - by rewrite IH, <-(assoc_L (++)), Nat.add_succ_r.
Qed.

Lemma consensus_two_spec seq1 seq2 :
  consensus_two seq1 seq2
  = (omap column_token (zip (align_two seq1 seq2).1 (align_two seq1 seq2).2),
     loop_lines 0 (zip (align_two seq1 seq2).1 (align_two seq1 seq2).2)).
Proof.
  unfold consensus_two. destruct (align_two seq1 seq2) as [aligned1 aligned2].
  by rewrite consensus_loop_spec.
Qed.

(** The token of a column that is not a gap on both sides: the left one
    when there is one, the right one otherwise. *)
Definition left_biased (c : pyval * pyval) : pyval :=
  match c.1 with
  | Some s => Some s
  | None => c.2
  end.

Lemma column_token_has_token c :
  has_token c → column_token c = Some (left_biased c).
Proof.
  destruct c as [[s1|] [s2|]]; unfold has_token, left_biased; simpl; try done.
  intros []. done.
Qed.

Lemma omap_column_token cols :
  Forall has_token cols → omap column_token cols = left_biased <$> cols.
Proof.
  induction 1 as [|c cols Hc _ IH]; [done|].
  by rewrite omap_column_token_cons, (column_token_has_token c Hc), IH.
Qed.

(** ** Exceptions *)

(** A Python expression that can raise either returns or raises. *)
Inductive exception := TypeError.

Inductive outcome (A : Type) :=
  | Returned (x : A)
  | Raised (e : exception).
Arguments Returned {A} x.
Arguments Raised {A} e.

Lemma filter_left_zip (l k : list pyval) :
  length l = length k →
  (filter (λ c, is_Some c.1) (zip l k)).*1 = remove_gaps l.
Proof.
  revert k. induction l as [|x l IH]; intros [|y k] Hk; try done.
  simpl. unfold remove_gaps. rewrite !filter_cons. simpl.
  destruct (decide (is_Some x)); simpl; f_equal; apply IH; simpl in Hk; lia.
Qed.

Lemma left_biased_filter (cols : list (pyval * pyval)) :
  left_biased <$> filter (λ c, is_Some c.1) cols
  = (filter (λ c, is_Some c.1) cols).*1.
Proof.
  induction cols as [|[x y] cols IH]; [done|]. rewrite filter_cons. simpl.
  destruct (decide (is_Some x)) as [[s ->]|]; [|done].
  rewrite !fmap_cons. by f_equal.
Qed.

(** ** Sequences without a common token run *)

Lemma matching_loop_nil sm fuel blocks :
  matching_loop sm fuel [] blocks = blocks.
Proof. by destruct fuel. Qed.

(** When [find_longest_match] finds nothing in the whole of [a] and [b],
    the only block is the final dummy. *)
Lemma get_matching_blocks_no_match sm :
  (find_longest_match sm 0 (length (sm_a sm)) 0 (length (sm_b sm))).2 = 0 →
  get_matching_blocks sm = [(length (sm_a sm), length (sm_b sm), 0)].
Proof.
  intros Hk. unfold get_matching_blocks.
  rewrite Nat.add_1_r. cbn [matching_loop].
  destruct (find_longest_match _ _ _ _ _) as [[i j] k]. simpl in Hk. subst k.
  by rewrite bool_decide_false, matching_loop_nil by naive_solver.
Qed.

Lemma find_longest_match_empty sm alo ahi blo bhi :
  ahi ≤ alo ∨ bhi ≤ blo → (find_longest_match sm alo ahi blo bhi).2 = 0.
Proof.
  intros Hempty.
  destruct (find_longest_match_in_region sm alo ahi blo bhi) as (?&?&_&Hk).
  destruct (decide ((find_longest_match sm alo ahi blo bhi).2 = 0)) as [|Hne];
    [done|].
  destruct (Hk Hne). lia.
Qed.

Lemma align_two_right_empty (A : list pyval) :
  align_two A [] = (A, replicate (length A) None).
Proof.
  unfold align_two, get_opcodes.
  rewrite get_matching_blocks_no_match
    by (apply find_longest_match_empty; simpl; lia).
  simpl. case_bool_decide as Hlen; simpl.
  - unfold slice. by rewrite drop_0, !Nat.sub_0_r, firstn_all.
  - by destruct A; simpl in *; [|lia].
Qed.

Lemma align_two_left_empty (A : list pyval) :
  align_two [] A = (replicate (length A) None, A).
Proof.
  unfold align_two, get_opcodes.
  rewrite get_matching_blocks_no_match
    by (apply find_longest_match_empty; simpl; lia).
  simpl. case_bool_decide as Hlen; simpl.
  - unfold slice. by rewrite drop_0, !Nat.sub_0_r, firstn_all.
  - by destruct A; simpl in *; [|lia].
Qed.

Lemma consensus_loop_right_gaps A idx consensus :
  gap_free A →
  consensus_loop idx (zip A (replicate (length A) None)) consensus
  = (consensus ++ A, []).
Proof.
  intros HA. revert idx consensus.
  induction HA as [|x A [s ->] _ IH]; intros idx consensus; simpl.
  { by rewrite app_nil_r. }
  unfold mbind, Out_bind, mret, Out_ret. rewrite IH.
  by rewrite <-(assoc_L (++)).
Qed.

Lemma consensus_loop_left_gaps A idx consensus :
  gap_free A →
  consensus_loop idx (zip (replicate (length A) None) A) consensus
  = (consensus ++ A, []).
Proof.
  intros HA. revert idx consensus.
  induction HA as [|x A [s ->] _ IH]; intros idx consensus; simpl.
  { by rewrite app_nil_r. }
  unfold mbind, Out_bind, mret, Out_ret. rewrite IH.
  by rewrite <-(assoc_L (++)).
Qed.

Lemma consensus_loop_same A idx consensus :
  gap_free A →
  consensus_loop idx (zip A A) consensus = (consensus ++ A, []).
Proof.
  intros HA. revert idx consensus.
  induction HA as [|x A [s ->] _ IH]; intros idx consensus; simpl.
  { by rewrite app_nil_r. }
  rewrite bool_decide_true by done.
  unfold mbind, Out_bind, mret, Out_ret. rewrite IH.
  by rewrite <-(assoc_L (++)).
Qed.

(** ** The index [b2j] *)

(** The indices [i + k] with [b[k] == x], in increasing order. *)
Fixpoint positions (x : pyval) (b : list pyval) (i : nat) : list nat :=
  match b with
  | [] => []
  | y :: b' =>
      if decide (y = x) then i :: positions x b' (S i)
      else positions x b' (S i)
  end.

Lemma index_elements_lookup i b m x :
  index_elements i b m !! x
  = match positions x b i with
    | [] => m !! x
    | js => Some (default [] (m !! x) ++ js)
    end.
Proof.
  revert i m. induction b as [|y b IH]; intros i m; simpl; [done|].
  rewrite IH. destruct (decide (y = x)) as [->|Hne].
  - rewrite lookup_insert_eq. simpl.
    destruct (positions x b (S i)); simpl; [done|].
    by rewrite <-(assoc_L (++)).
  - by rewrite lookup_insert_ne.
Qed.

Lemma chain_b_lookup b x js : chain_b b !! x = Some js → js = positions x b 0.
Proof.
  unfold chain_b, purge_popular.
  assert (index_elements 0 b ∅ !! x = Some js → js = positions x b 0) as Hidx.
  { rewrite index_elements_lookup, lookup_empty.
    destruct (positions x b 0); simpl; congruence. }
  case_bool_decide; [|done].
  rewrite map_lookup_filter_Some. intros [Hl _]. auto.
Qed.

Lemma positions_elem x b i j :
  j ∈ positions x b i → i ≤ j ∧ b !! (j - i) = Some x.
Proof.
  revert i. induction b as [|y b IH]; intros i; simpl.
  { by intros ?%elem_of_nil. }
  assert (j ∈ positions x b (S i) → i ≤ j ∧ (y :: b) !! (j - i) = Some x)
    as Hrest.
  { intros [Hle Hj]%IH. split; [lia|].
    replace (j - i) with (S (j - S i)) by lia. done. }
  destruct (decide (y = x)) as [->|Hne]; [|done].
  intros [->|Hin]%elem_of_cons; [|auto].
  split; [done|]. by rewrite Nat.sub_diag.
Qed.

Lemma positions_elem_2 x b i k :
  b !! k = Some x → i + k ∈ positions x b i.
Proof.
  revert i k. induction b as [|y b IH]; intros i [|k] Hk; simpl in *;
    try done.
  - injection Hk as ->. rewrite decide_True by done.
    rewrite Nat.add_0_r. apply list_elem_of_here.
  - replace (i + S k) with (S i + k) by lia.
    destruct (decide (y = x)); [apply list_elem_of_further|]; by apply IH.
Qed.

Lemma positions_sorted x b i : StronglySorted lt (positions x b i).
Proof.
  revert i. induction b as [|y b IH]; intros i; simpl; [constructor|].
  destruct (decide (y = x)); [|done].
  constructor; [done|]. apply Forall_forall.
  intros j [Hj _]%positions_elem. lia.
Qed.

(** ** Matching a sequence against itself *)

Section same.
Context (A : list pyval).
Let sm := Difflib.new A A.
Let n := length A.

(** [a[t]] is a key of [b2j]: it was not purged as popular. *)
Definition indexed (t : nat) : Prop :=
  is_Some (A !! t ≫= λ x, chain_b A !! x).

(** The number of consecutive indexed elements that end at [t]. *)
Fixpoint run (t : nat) : nat :=
  match t with
  | 0 => if decide (indexed 0) then 1 else 0
  | S t' => if decide (indexed (S t')) then S (run t') else 0
  end.

Definition run_before (i : nat) : nat :=
  match i with
  | 0 => 0
  | S i' => run i'
  end.

Lemma run_unfold i :
  run i = if decide (indexed i) then S (run_before i) else 0.
Proof. by destruct i. Qed.

Lemma run_le t : run t ≤ S t.
Proof.
  induction t as [|t IH]; simpl; case_decide; lia.
Qed.

(** What the outer loop reads at row [i]. *)
Lemma row_spec i :
  i < n →
  let js := default [] (A !! i ≫= λ x, chain_b A !! x) in
  (¬ indexed i ∧ js = []) ∨
  (indexed i ∧ StronglySorted lt js ∧ i ∈ js ∧
   ∀ j, j ∈ js → j < n ∧ indexed j).
Proof.
  intros Hi. unfold indexed.
  destruct (lookup_lt_is_Some_2 A i Hi) as [x Hx]. rewrite Hx. simpl.
  destruct (chain_b A !! x) as [js|] eqn:Hjs; simpl.
  - right. pose proof (chain_b_lookup _ _ _ Hjs) as ->.
    split; [done|]. split; [apply positions_sorted|]. split.
    + by apply (positions_elem_2 x A 0 i).
    + intros j [_ Hj]%positions_elem. rewrite Nat.sub_0_r in Hj.
      split; [by eapply lookup_lt_Some|]. rewrite Hj. simpl. by rewrite Hjs.
  - left. split; [|done]. by intros [??].
Qed.

(** At the start of row [i], the entries of [j2len] are bounded by the
    runs, and the entry on the diagonal is the run that ends at [i-1]. *)
Definition j2len_diag (i : nat) (j2len : gmap nat nat) : Prop :=
  (∀ j v, j2len !! j = Some v → v ≤ run j ∧ v ≤ run_before i) ∧
  j2lenget j2len i = run_before i.

(** The best match lies on the diagonal and is at least as long as
    every run met so far. *)
Definition best_diag (i : nat) (best : Match) : Prop :=
  best.1.1 = best.1.2 ∧ best.1.1 + best.2 ≤ i ∧
  ∀ t, t < i → run t ≤ best.2.

Lemma j2lenget_diag i j2len j :
  j2len_diag i j2len → indexed i → indexed j →
  j2lenget j2len j + 1 ≤ run j ∧ j2lenget j2len j + 1 ≤ run i.
Proof.
  intros [HJ _] Hi Hj. rewrite (run_unfold j), (run_unfold i).
  rewrite !decide_True by done.
  destruct j as [|j]; simpl; [lia|].
  destruct (j2len !! j) as [v|] eqn:Hv; simpl; [|lia].
  destruct (HJ _ _ Hv). lia.
Qed.

Lemma scan_row_j2len i j2len js newj2len best j :
  (∀ j, j ∈ js → j < n) →
  (scan_row 0 n i j2len js newj2len best).1 !! j
  = if decide (j ∈ js) then Some (j2lenget j2len j + 1)
    else newj2len !! j.
Proof.
  revert newj2len best.
  induction js as [|j0 js IH]; intros newj2len best Hjs; cbn [scan_row fst].
  { rewrite decide_False; [done|]. apply not_elem_of_nil. }
  rewrite bool_decide_false by lia.
  rewrite bool_decide_false
    by (pose proof (Hjs j0 (list_elem_of_here _ _)); unfold n in *; lia).
  rewrite IH by (intros; apply Hjs; by apply list_elem_of_further).
  destruct (decide (j ∈ js)) as [Hin|Hnin].
  - rewrite decide_True; [done|]. by apply list_elem_of_further.
  - destruct (decide (j0 = j)) as [->|Hne].
    + rewrite lookup_insert_eq, decide_True; [done|apply list_elem_of_here].
    + rewrite lookup_insert_ne by done.
      rewrite decide_False; [done|]. rewrite elem_of_cons.
      intros [->|?]; done.
Qed.

Lemma scan_row_diag i j2len js newj2len best :
  j2len_diag i j2len → indexed i →
  StronglySorted lt js → (∀ j, j ∈ js → j < n ∧ indexed j) →
  best.1.1 = best.1.2 → best.1.1 + best.2 ≤ S i →
  (∀ t, t < i → run t ≤ best.2) →
  (i ∈ js ∨ run i ≤ best.2) →
  best_diag (S i) (scan_row 0 n i j2len js newj2len best).2.
Proof.
  intros HJ Hi. revert newj2len best.
  induction js as [|j js IH];
    intros newj2len best Hsorted Hjs Hd Hend Hruns Hrow; simpl.
  { destruct Hrow as [?%elem_of_nil|Hrow]; [done|].
    split; [done|]. split; [done|]. intros t Ht.
    destruct (decide (t = i)) as [->|]; [done|]. apply Hruns. lia. }
  apply StronglySorted_inv in Hsorted as [Hsorted Hlt].
  destruct (Hjs j (list_elem_of_here _ _)) as [Hjn Hj].
  rewrite bool_decide_false by (unfold n in *; lia).
  destruct (j2lenget_diag i j2len j HJ Hi Hj) as [Hkj Hki].
  assert (j2lenget j2len i + 1 = run i) as Hkdiag.
  { rewrite run_unfold, decide_True by done. destruct HJ as [_ ->]. lia. }
  assert (∀ j', j' ∈ js → j' < n ∧ indexed j') as Hjs'
    by (intros; apply Hjs; by apply list_elem_of_further).
  pose proof (run_le i) as Hrun.
  case_bool_decide as Hbetter.
  - assert (j = i) as ->.
    { destruct (decide (j < i)) as [Hlt'|Hge].
      { specialize (Hruns j Hlt'). lia. }
      destruct (decide (j = i)) as [|Hne]; [done|].
      destruct Hrow as [Hin|Hrow]; [|lia].
      apply elem_of_cons in Hin as [->|Hin]; [done|].
      rewrite Forall_forall in Hlt. specialize (Hlt _ Hin). lia. }
    apply IH; simpl; try done; try lia.
    intros t Ht. specialize (Hruns t Ht). lia.
  - apply IH; try done.
    destruct Hrow as [Hin|Hrow]; [|by right].
    apply elem_of_cons in Hin as [->|Hin]; [right; lia|by left].
Qed.

Lemma scan_rows_diag m i j2len best :
  i + m = n → j2len_diag i j2len → best_diag i best →
  let r := scan_rows sm 0 n (seq i m) j2len best in
  r.1.1 = r.1.2 ∧ r.1.1 + r.2 ≤ n.
Proof.
  revert i j2len best.
  induction m as [|m IH]; intros i j2len best Hm HJ (Hd & Hend & Hruns).
  { simpl. split; [done|lia]. }
  cbn [seq scan_rows]. change (sm_a sm) with A. change (b2j sm) with (chain_b A).
  assert (i < n) as Hi by lia.
  pose proof (row_spec i Hi) as Hrow. cbv zeta in Hrow.
  set (js := default [] (A !! i ≫= λ x, chain_b A !! x)) in *.
  pose proof (scan_row_j2len i j2len js ∅ best) as Hnew.
  pose proof (scan_row_diag i j2len js ∅ best HJ) as Hbest.
  destruct (scan_row 0 n i j2len js ∅ best) as [newj2len best'] eqn:Hscan.
  simpl in Hnew, Hbest.
  destruct Hrow as [[Hni Hjs]|(Hidx & Hsorted & Hin & Hjs)].
  - rewrite Hjs in Hscan. simpl in Hscan. injection Hscan as <- <-.
    assert (run i = 0) as Hrun0
      by (rewrite run_unfold, decide_False by done; done).
    apply IH; [lia| |].
    + split; [intros j v; by rewrite lookup_empty|]. simpl.
      by rewrite lookup_empty, Hrun0.
    + split; [done|]. split; [lia|]. intros t Ht.
      destruct (decide (t = i)) as [->|]; [lia|]. apply Hruns. lia.
  - apply IH; [lia| |].
    + split.
      * intros j v. rewrite Hnew by (intros; by apply Hjs).
        case_decide as Hj; [|by rewrite lookup_empty].
        intros [= <-]. simpl.
        apply (j2lenget_diag i j2len j HJ Hidx). by apply Hjs.
      * simpl. rewrite Hnew by (intros; by apply Hjs).
        rewrite decide_True by done. simpl.
        rewrite run_unfold, decide_True by done. destruct HJ as [_ ->]. lia.
    + apply Hbest; try done. { lia. } by left.
Qed.

Lemma same_at_diag t : t < n → same_at sm t t = true.
Proof.
  intros Ht. unfold same_at. simpl.
  destruct (lookup_lt_is_Some_2 A t Ht) as [x ->].
  by rewrite bool_decide_true.
Qed.

Lemma junk_at_new j : junk_at sm j = false.
Proof. unfold junk_at, isbjunk. simpl. by destruct (A !! j). Qed.

Lemma extend_back_diag bi bs :
  bi + bs ≤ n → extend_back sm 0 0 false bi bi bs = (0, 0, bi + bs).
Proof.
  revert bs. induction bi as [|bi IH]; intros bs Hle; simpl; [done|].
  rewrite Nat.sub_0_r, junk_at_new, same_at_diag by lia.
  rewrite !bool_decide_true by (done || lia). simpl.
  rewrite IH by lia. f_equal. lia.
Qed.

Lemma extend_fwd_diag m s :
  s + m = n → extend_fwd sm n n false m 0 0 s = (0, 0, n).
Proof.
  revert s. induction m as [|m IH]; intros s Hs; simpl.
  { f_equal. lia. }
  rewrite junk_at_new, same_at_diag by lia.
  rewrite !bool_decide_true by (done || lia). simpl.
  apply IH. lia.
Qed.

Lemma find_longest_match_same : find_longest_match sm 0 n 0 n = (0, 0, n).
Proof.
  unfold find_longest_match. rewrite Nat.sub_0_r.
  destruct (scan_rows_diag n 0 ∅ (0, 0, 0)) as [Hd Hend]; [lia| | |].
  { split; [intros j v; by rewrite lookup_empty|done]. }
  { split; [done|]. split; [done|]. lia. }
  destruct (scan_rows sm 0 n (seq 0 n) ∅ (0, 0, 0)) as [[bi bj] bs].
  simpl in Hd, Hend. subst bj. unfold extend at 2.
  rewrite extend_back_diag by done.
  rewrite extend_fwd_diag by lia.
  unfold extend. simpl. replace (n - n) with 0 by lia. done.
Qed.

Lemma get_opcodes_same : 0 < n → get_opcodes sm = [(equal, 0, n, 0, n)].
Proof.
  intros Hn. unfold get_opcodes, get_matching_blocks.
  change (length (sm_a sm)) with n. change (length (sm_b sm)) with n.
  rewrite Nat.add_1_r. cbn [matching_loop].
  rewrite find_longest_match_same.
  rewrite bool_decide_true by lia.
  rewrite (bool_decide_false (0 < 0)) by lia.
  rewrite (bool_decide_false (0 + n < n)) by lia.
  simpl. rewrite matching_loop_nil.
  change (merge_sort match_le [(0, 0, n)]) with [(0, 0, n)].
  repeat (simpl; case_bool_decide; try lia). done.
Qed.

Lemma align_two_same : align_two A A = (A, A).
Proof.
  destruct (decide (0 < n)) as [Hn|Hn].
  - unfold align_two. fold sm. rewrite get_opcodes_same by done. simpl.
    unfold slice, n. by rewrite drop_0, Nat.sub_0_r, firstn_all.
  - destruct A; [by vm_compute|]. simpl in *. unfold n in Hn. simpl in Hn. lia.
Qed.
End same.

(** * The claims *)

(** Tokens given as Python strings. *)
Definition tokens (l : list string) : list pyval := Some <$> l.

Lemma gap_free_tokens l : gap_free (tokens l).
Proof. apply Forall_fmap, Forall_forall. intros s _. by exists s. Qed.

(** C1: for all token sequences [A] and [B] (empty ones, duplicates and
    [None] included), the two sequences returned by [align_two(A, B)] have
    the same length. *)
Theorem align_two_same_length (A B : list pyval) :
  length (align_two A B).1 = length (align_two A B).2.
Proof. apply align_two_length. Qed.

(** C2: for sequences [A] and [B] without [None], removing the gap markers
    from the first output of [align_two(A, B)] gives back [A], and from the
    second output gives back [B]. *)
Theorem align_two_reconstructs (A B : list pyval) :
  gap_free A → gap_free B →
  remove_gaps (align_two A B).1 = A ∧ remove_gaps (align_two A B).2 = B.
Proof.
  intros HA HB. destruct (align_two_tokens A B) as [-> ->].
  by rewrite !remove_gaps_gap_free.
Qed.

Lemma align_two_reconstructs_witness :
  gap_free (tokens ["a"; "b"; "c"]) ∧ gap_free (tokens ["a"; "x"; "y"; "c"]) ∧
  remove_gaps (align_two (tokens ["a"; "b"; "c"]) (tokens ["a"; "x"; "y"; "c"])).1
    = tokens ["a"; "b"; "c"] ∧
  remove_gaps (align_two (tokens ["a"; "b"; "c"]) (tokens ["a"; "x"; "y"; "c"])).2
    = tokens ["a"; "x"; "y"; "c"].
Proof.
  assert (gap_free (tokens ["a"; "b"; "c"])) as HA by (repeat econstructor).
  assert (gap_free (tokens ["a"; "x"; "y"; "c"])) as HB by (repeat econstructor).
  split; [exact HA|]. split; [exact HB|].
  exact (align_two_reconstructs _ _ HA HB).
Defined.

(** C7: for gap-free [A] and [B], no column of [align_two(A, B)] is a gap
    on both sides, so the loop of [consensus_two] never takes its skip
    branch: every column contributes one token to the consensus. *)
Theorem align_two_no_double_gap (A B : list pyval) :
  gap_free A → gap_free B →
  Forall (λ c, ¬ (c.1 = None ∧ c.2 = None))
    (zip (align_two A B).1 (align_two A B).2) ∧
  length (consensus_two A B).1 = length (align_two A B).1.
Proof.
  intros HA HB.
  pose proof (ab_columns _ _ _ _ _ _ _ _ (align_two_block A B) HA HB) as Hc.
  split; [exact Hc|].
  rewrite consensus_two_spec. simpl.
  rewrite (omap_column_token _ Hc), length_fmap, length_zip_with_l_eq; [done|].
  apply align_two_length.
Qed.

Lemma align_two_no_double_gap_witness :
  gap_free (tokens ["a"; "b"]) ∧ gap_free (tokens ["b"; "c"; "d"]) ∧
  Forall (λ c, ¬ (c.1 = None ∧ c.2 = None))
    (zip (align_two (tokens ["a"; "b"]) (tokens ["b"; "c"; "d"])).1
         (align_two (tokens ["a"; "b"]) (tokens ["b"; "c"; "d"])).2) ∧
  length (consensus_two (tokens ["a"; "b"]) (tokens ["b"; "c"; "d"])).1
  = length (align_two (tokens ["a"; "b"]) (tokens ["b"; "c"; "d"])).1.
Proof.
  assert (gap_free (tokens ["a"; "b"])) as HA by (repeat econstructor).
  assert (gap_free (tokens ["b"; "c"; "d"])) as HB by (repeat econstructor).
  split; [exact HA|]. split; [exact HB|].
  exact (align_two_no_double_gap _ _ HA HB).
Defined.

(** C10: the left input is kept whole. For gap-free [A] and [B], every
    column of the alignment contributes its left token when it has one and
    its right token otherwise; the columns where [A] holds a token read
    back exactly [A], so [A] is a subsequence of [consensus_two(A, B)] and
    the consensus is at least as long as [A]. *)
Theorem consensus_two_keeps_left (A B : list pyval) :
  gap_free A → gap_free B →
  let cols := zip (align_two A B).1 (align_two A B).2 in
  (consensus_two A B).1 = left_biased <$> cols ∧
  (filter (λ c, is_Some c.1) cols).*1 = A ∧
  A `sublist_of` (consensus_two A B).1 ∧
  length A ≤ length (consensus_two A B).1.
Proof.
  intros HA HB cols.
  pose proof (ab_columns _ _ _ _ _ _ _ _ (align_two_block A B) HA HB) as Hc.
  destruct (align_two_tokens A B) as [H1 _].
  rewrite (remove_gaps_gap_free A HA) in H1.
  assert ((consensus_two A B).1 = left_biased <$> cols) as Hcons.
  { rewrite consensus_two_spec. simpl. by apply omap_column_token. }
  assert ((filter (λ c, is_Some c.1) cols).*1 = A) as Hleft.
  { unfold cols. rewrite filter_left_zip by apply align_two_length.
    exact H1. }
  assert (A `sublist_of` (consensus_two A B).1) as Hsub.
  { rewrite Hcons, <-Hleft, <-left_biased_filter.
    apply fmap_sublist, sublist_filter. }
  repeat split; try done. by apply sublist_length.
Qed.

Lemma consensus_two_keeps_left_witness :
  gap_free (tokens ["a"; "b"; "c"]) ∧ gap_free (tokens ["x"; "b"; "y"; "z"]) ∧
  let A := tokens ["a"; "b"; "c"] in
  let B := tokens ["x"; "b"; "y"; "z"] in
  let cols := zip (align_two A B).1 (align_two A B).2 in
  (consensus_two A B).1 = left_biased <$> cols ∧
  (filter (λ c, is_Some c.1) cols).*1 = A ∧
  A `sublist_of` (consensus_two A B).1 ∧
  length A ≤ length (consensus_two A B).1.
Proof.
  assert (gap_free (tokens ["a"; "b"; "c"])) as HA by (repeat econstructor).
  assert (gap_free (tokens ["x"; "b"; "y"; "z"])) as HB
    by (repeat econstructor).
  split; [exact HA|]. split; [exact HB|].
  exact (consensus_two_keeps_left _ _ HA HB).
Defined.

(** C3: at a column [idx] of the alignment where both sides hold tokens
    and the tokens differ, [consensus_two] appends the token of the left
    sequence and prints one line that names [idx] and the two tokens; the
    columns before and after are handled on their own. In particular
    [consensus_two(["x"], ["y"]) == ["x"]]. *)
Theorem consensus_two_mismatch (A B : list pyval) (idx : nat) (s1 s2 : string) :
  (align_two A B).1 !! idx = Some (Some s1) →
  (align_two A B).2 !! idx = Some (Some s2) →
  s1 ≠ s2 →
  let cols := zip (align_two A B).1 (align_two A B).2 in
  let before := consensus_loop 0 (take idx cols) [] in
  let after := consensus_loop (S idx) (drop (S idx) cols) [] in
  consensus_two A B
  = (before.1 ++ Some s1 :: after.1,
     before.2 ++ mismatch_line idx s1 s2 :: after.2) ∧
  consensus_two [Some "x"] [Some "y"]
  = ([Some "x"], ["Column 0 mismatch: 'x' vs 'y'; choosing 'x'"]).
Proof.
  intros H1 H2 Hne cols before after. split; [|by vm_compute].
  assert (cols !! idx = Some (Some s1, Some s2)) as Hcol.
  { unfold cols. by rewrite lookup_zip_with, H1, H2. }
  assert (length (take idx cols) = idx) as Hlen.
  { apply length_take_le. apply lookup_lt_Some in Hcol. lia. }
  rewrite consensus_two_spec. fold cols. unfold before, after.
  rewrite !consensus_loop_spec. simpl.
  rewrite <-(take_drop_middle cols idx _ Hcol) at 1 2.
  rewrite omap_app, omap_column_token_cons, loop_lines_app, Hlen. simpl.
  by rewrite bool_decide_false by done.
Qed.

Lemma consensus_two_mismatch_witness :
  let A := [Some "a"; Some "x"; Some "c"] in
  let B := [Some "a"; Some "y"; Some "c"] in
  (align_two A B).1 !! 1 = Some (Some "x") ∧
  (align_two A B).2 !! 1 = Some (Some "y") ∧
  "x" ≠ "y" ∧
  consensus_two A B
  = ([Some "a"; Some "x"; Some "c"],
     ["Column 1 mismatch: 'x' vs 'y'; choosing 'x'"]).
Proof.
  intros A B.
  assert ((align_two A B).1 !! 1 = Some (Some "x")) as H1 by (by vm_compute).
  assert ((align_two A B).2 !! 1 = Some (Some "y")) as H2 by (by vm_compute).
  assert ("x" ≠ "y") as Hne by (by vm_compute).
  split; [exact H1|]. split; [exact H2|]. split; [exact Hne|].
  exact (proj1 (consensus_two_mismatch A B 1 "x" "y" H1 H2 Hne)).
Defined.

(** C4: the three-way consensus is the left-to-right fold of the pairwise
    one, [consensus_three(A, B, C) == consensus_two(consensus_two(A, B), C)];
    it prints its two progress lines around what the two merges print. *)
Theorem consensus_three_is_fold (A B C : list pyval) :
  (consensus_three A B C).1 = (consensus_two (consensus_two A B).1 C).1 ∧
  (consensus_three A B C).2
  = ["Merging first two transcripts..."] ++ (consensus_two A B).2
    ++ ["Merging consensus of first two with the third transcript..."]
    ++ (consensus_two (consensus_two A B).1 C).2.
Proof.
  unfold consensus_three, mbind, Out_bind, mret, Out_ret, print.
  destruct (consensus_two A B) as [cons12 o12]. simpl.
  destruct (consensus_two cons12 C) as [final o3]. simpl.
  by rewrite app_nil_r.
Qed.

(** C5: [consensus_three(["the","cat","sat"], ["the","cat","sit"],
    ["a","cat","sat"])] returns [["the","cat","sat"]]. *)
Theorem consensus_three_the_cat_sat :
  (consensus_three (tokens ["the"; "cat"; "sat"]) (tokens ["the"; "cat"; "sit"])
     (tokens ["a"; "cat"; "sat"])).1
  = tokens ["the"; "cat"; "sat"].
Proof. by vm_compute. Qed.

(** C9: the empty sequence is a two-sided identity of [consensus_two] on
    gap-free sequences, and nothing is printed. *)
Theorem consensus_two_empty (A : list pyval) :
  gap_free A →
  consensus_two A [] = (A, []) ∧ consensus_two [] A = (A, []).
Proof.
  intros HA. unfold consensus_two.
  rewrite align_two_right_empty, align_two_left_empty.
  by rewrite consensus_loop_right_gaps, consensus_loop_left_gaps.
Qed.

Lemma consensus_two_empty_witness :
  gap_free (tokens ["a"; "b"; "a"]) ∧
  consensus_two (tokens ["a"; "b"; "a"]) [] = (tokens ["a"; "b"; "a"], []) ∧
  consensus_two [] (tokens ["a"; "b"; "a"]) = (tokens ["a"; "b"; "a"], []).
Proof.
  assert (gap_free (tokens ["a"; "b"; "a"])) as HA by (repeat econstructor).
  split; [exact HA|]. exact (consensus_two_empty _ HA).
Defined.

(** C8: a gap-free sequence reconciled with itself comes back unchanged,
    and no mismatch line is printed. *)
Theorem consensus_two_same (A : list pyval) :
  gap_free A → consensus_two A A = (A, []).
Proof.
  intros HA. unfold consensus_two. rewrite align_two_same.
  by rewrite consensus_loop_same.
Qed.

Lemma consensus_two_same_witness :
  gap_free (tokens ["a"; "b"; "a"; "a"]) ∧
  consensus_two (tokens ["a"; "b"; "a"; "a"]) (tokens ["a"; "b"; "a"; "a"])
  = (tokens ["a"; "b"; "a"; "a"], []).
Proof.
  assert (gap_free (tokens ["a"; "b"; "a"; "a"])) as HA
    by (repeat econstructor).
  split; [exact HA|]. exact (consensus_two_same _ HA).
Defined.

(** * Further properties of the alignment and the consensus *)

(** ** What the consensus holds *)

Lemma column_token_is_Some c t : column_token c = Some t → is_Some t.
Proof. destruct c as [[s1|] [s2|]]; simpl; intros [= <-]; by eexists. Qed.

Lemma column_token_side c t :
  column_token c = Some t → is_Some t ∧ (t = c.1 ∨ t = c.2).
Proof.
  destruct c as [[s1|] [s2|]]; simpl; intros [= <-];
    (split; [by eexists|auto]).
Qed.

(** X1: whatever the inputs (also with [None] among their tokens), the
    consensus returned by [consensus_two] holds no [None]. *)
Theorem consensus_two_gap_free (A B : list pyval) :
  gap_free (consensus_two A B).1.
Proof.
  rewrite consensus_two_spec. simpl. apply Forall_forall.
  intros t (c & _ & Hc)%list_elem_of_omap. by eapply column_token_is_Some.
Qed.

(** X2: every token of [consensus_two(A, B)] is a token of [A] or of [B]. *)
Theorem consensus_two_tokens_from_inputs (A B : list pyval) :
  Forall (λ t, t ∈ A ∨ t ∈ B) (consensus_two A B).1.
Proof.
  rewrite consensus_two_spec. simpl. apply Forall_forall.
  intros t ([x y] & Hin & Hc)%list_elem_of_omap.
  destruct (align_two_tokens A B) as [H1 H2].
  apply column_token_side in Hc as [Ht [->| ->]]; simpl in *.
  - left. apply elem_of_zip_l in Hin.
    assert (x ∈ remove_gaps (align_two A B).1) as Hx
      by (by apply list_elem_of_filter).
    rewrite H1 in Hx. by apply list_elem_of_filter in Hx as [_ ?].
  - right. apply elem_of_zip_r in Hin.
    assert (y ∈ remove_gaps (align_two A B).2) as Hy
      by (by apply list_elem_of_filter).
    rewrite H2 in Hy. by apply list_elem_of_filter in Hy as [_ ?].
Qed.

(** ** Lengths *)

Lemma slice_length_le {A} (l : list A) i1 i2 :
  length (slice l i1 i2) ≤ i2 - i1.
Proof. unfold slice. rewrite length_take. lia. Qed.

Lemma align_tiling_length seq1 seq2 i j ops :
  tiling (length seq1) (length seq2) i j ops →
  ∀ aligned1 aligned2,
    length (foldl (align_op seq1 seq2) (aligned1, aligned2) ops).1 + i + j
    ≤ length aligned1 + length seq1 + length seq2.
Proof.
  induction 1 as [|i j n ops Hn Hops IH|i i2 j j2 ops Hi Hj Hops IH
                  |i i2 j ops Hi Hops IH|i j j2 ops Hj Hops IH];
    intros aligned1 aligned2; simpl; [lia|..].
  all: match goal with
       | |- context [foldl _ (?acc1, ?acc2) _] =>
           pose proof (IH acc1 acc2) as Hrest
       end.
  all: rewrite length_app in Hrest.
  - pose proof (slice_length_le seq1 i (i + n)). lia.
  - rewrite length_app, length_replicate in Hrest.
    pose proof (slice_length_le seq1 i i2).
    pose proof (slice_length_le seq2 j j2). lia.
  - pose proof (slice_length_le seq1 i i2). lia.
  - rewrite length_replicate in Hrest.
    lia.
Qed.

Lemma length_omap_le {X Y} (f : X → option Y) (l : list X) :
  length (omap f l) ≤ length l.
Proof.
  induction l as [|x l IH]; [done|].
  change (omap f (x :: l))
    with (match f x with Some y => y :: omap f l | None => omap f l end).
  destruct (f x); simpl; lia.
Qed.

(** X3: for all inputs, the consensus is no longer than the alignment, and
    the alignment is no longer than the two inputs together. *)
Theorem consensus_two_length_le (A B : list pyval) :
  length (consensus_two A B).1 ≤ length (align_two A B).1 ∧
  length (align_two A B).1 ≤ length A + length B.
Proof.
  split.
  - rewrite consensus_two_spec. simpl. etrans; [apply length_omap_le|].
    rewrite length_zip_with. lia.
  - pose proof (align_tiling_length A B 0 0 _
      (get_opcodes_tiling (Difflib.new A B)) [] []) as Hlen.
    unfold align_two. simpl in *. lia.
Qed.

(** X4: for gap-free inputs the consensus is at least as long as the
    longer input. *)
Theorem consensus_two_length_ge (A B : list pyval) :
  gap_free A → gap_free B →
  length A `max` length B ≤ length (consensus_two A B).1.
Proof.
  intros HA HB.
  pose proof (ab_columns _ _ _ _ _ _ _ _ (align_two_block A B) HA HB) as Hc.
  pose proof (align_two_length A B) as Hlen.
  destruct (align_two_tokens A B) as [H1 H2].
  rewrite (remove_gaps_gap_free A HA) in H1.
  rewrite (remove_gaps_gap_free B HB) in H2.
  rewrite consensus_two_spec. simpl.
  rewrite (omap_column_token _ Hc), length_fmap, length_zip_with.
  pose proof (length_filter is_Some (align_two A B).1) as Hl1.
  pose proof (length_filter is_Some (align_two A B).2) as Hl2.
  unfold remove_gaps in H1, H2. rewrite H1 in Hl1. rewrite H2 in Hl2. lia.
Qed.

Lemma consensus_two_length_ge_witness :
  gap_free (tokens ["a"; "b"]) ∧ gap_free (tokens ["b"; "c"; "d"]) ∧
  length (tokens ["a"; "b"]) `max` length (tokens ["b"; "c"; "d"])
  ≤ length (consensus_two (tokens ["a"; "b"]) (tokens ["b"; "c"; "d"])).1.
Proof.
  assert (gap_free (tokens ["a"; "b"])) as HA by (repeat econstructor).
  assert (gap_free (tokens ["b"; "c"; "d"])) as HB by (repeat econstructor).
  split; [exact HA|]. split; [exact HB|].
  exact (consensus_two_length_ge _ _ HA HB).
Defined.

Lemma loop_lines_length idx cols :
  length (loop_lines idx cols) ≤ length (remove_gaps cols.*1) ∧
  length (loop_lines idx cols) ≤ length (remove_gaps cols.*2).
Proof.
  revert idx. induction cols as [|[t1 t2] cols IH]; intros idx; [done|].
  destruct (IH (S idx)) as [IH1 IH2].
  cbn [loop_lines fmap list_fmap fst snd]. unfold remove_gaps in *.
  rewrite !filter_cons, length_app.
  assert (length (column_lines idx (t1, t2)) ≤ 1) as Hone.
  { destruct t1, t2; simpl; try lia. case_bool_decide; simpl; lia. }
  destruct t1 as [s1|], t2 as [s2|]; simpl in *;
    repeat case_decide; simpl; try lia.
  all: match goal with
       | H : is_Some None |- _ => by destruct H
       | H : ¬ is_Some (Some _) |- _ => destruct H; by eexists
       end.
Qed.

(** X5: [consensus_two(A, B)] prints at most [min(len(A), len(B))]
    mismatch lines, whatever the inputs. *)
Theorem consensus_two_mismatch_count (A B : list pyval) :
  length (consensus_two A B).2 ≤ length A `min` length B.
Proof.
  rewrite consensus_two_spec. simpl.
  destruct (loop_lines_length 0 (zip (align_two A B).1 (align_two A B).2))
    as [H1 H2].
  pose proof (align_two_length A B) as Hlen.
  rewrite fst_zip in H1 by lia. rewrite snd_zip in H2 by lia.
  destruct (align_two_tokens A B) as [E1 E2]. rewrite E1 in H1. rewrite E2 in H2.
  pose proof (length_filter is_Some A). pose proof (length_filter is_Some B).
  unfold remove_gaps in *. lia.
Qed.

(** ** A sequence against itself, with [None] among the tokens *)

Lemma remove_gaps_cons_Some s l :
  remove_gaps (Some s :: l) = Some s :: remove_gaps l.
Proof. unfold remove_gaps. rewrite filter_cons_True; [done|by eexists]. Qed.

Lemma remove_gaps_cons_None l : remove_gaps (None :: l) = remove_gaps l.
Proof. unfold remove_gaps. rewrite filter_cons_False; [done|by intros [??]]. Qed.

Lemma omap_column_token_same A : omap column_token (zip A A) = remove_gaps A.
Proof.
  induction A as [|[s|] A IH]; [done|..]; simpl zip_with;
    rewrite omap_column_token_cons, IH;
    by rewrite ?remove_gaps_cons_Some, ?remove_gaps_cons_None.
Qed.

Lemma loop_lines_same idx A : loop_lines idx (zip A A) = [].
Proof.
  revert idx. induction A as [|[s|] A IH]; intros idx; simpl; [done|..].
  - by rewrite bool_decide_true, IH.
  - by rewrite IH.
Qed.

Lemma consensus_two_same_any A : consensus_two A A = (remove_gaps A, []).
Proof.
  rewrite consensus_two_spec, align_two_same. simpl.
  by rewrite omap_column_token_same, loop_lines_same.
Qed.

(** X6: for every sequence [A], also with [None] among its tokens,
    [consensus_two(A, A)] is [A] without its [None] entries, and nothing is
    printed. *)
Theorem consensus_two_same_drops_None (A : list pyval) :
  consensus_two A A = (filter is_Some A, []).
Proof. apply consensus_two_same_any. Qed.

(** ** The order of the tokens *)

(** The tokens of the left side all reach the consensus, in order. *)
Lemma left_tokens_sublist l k :
  length l = length k →
  remove_gaps l `sublist_of` omap column_token (zip l k).
Proof.
  revert k. induction l as [|x l IH]; intros [|y k] Hlen; try done.
  assert (length l = length k) as Hlen' by (simpl in Hlen; lia).
  specialize (IH k Hlen'). simpl zip_with. rewrite omap_column_token_cons.
  destruct x as [s1|], y as [s2|]; simpl;
    rewrite ?remove_gaps_cons_Some, ?remove_gaps_cons_None.
  - by apply sublist_skip.
  - by apply sublist_skip.
  - by apply sublist_cons.
  - done.
Qed.

(** Without a mismatch, the tokens of the right side all reach the
    consensus too. *)
Lemma right_tokens_sublist idx l k :
  length l = length k → loop_lines idx (zip l k) = [] →
  remove_gaps k `sublist_of` omap column_token (zip l k).
Proof.
  revert idx k. induction l as [|x l IH]; intros idx [|y k] Hlen; try done.
  assert (length l = length k) as Hlen' by (simpl in Hlen; lia).
  simpl zip_with. cbn [loop_lines]. intros [Hcol Hrest]%app_eq_nil.
  specialize (IH (S idx) k Hlen' Hrest). rewrite omap_column_token_cons.
  destruct x as [s1|], y as [s2|]; simpl in *;
    rewrite ?remove_gaps_cons_Some, ?remove_gaps_cons_None.
  - case_bool_decide as Heq; [|done]. subst s2. by apply sublist_skip.
  - by apply sublist_cons.
  - by apply sublist_skip.
  - done.
Qed.

Lemma consensus_two_left_sublist A B :
  gap_free A → A `sublist_of` (consensus_two A B).1.
Proof.
  intros HA. destruct (align_two_tokens A B) as [H1 _].
  rewrite (remove_gaps_gap_free A HA) in H1.
  rewrite consensus_two_spec. simpl. rewrite <-H1 at 1.
  apply left_tokens_sublist, align_two_length.
Qed.

(** X7: when [consensus_two(A, B)] prints no mismatch line, the consensus
    is a common supersequence of the gap-free inputs: both [A] and [B] are
    subsequences of it. *)
Theorem consensus_two_supersequence (A B : list pyval) :
  gap_free A → gap_free B → (consensus_two A B).2 = [] →
  A `sublist_of` (consensus_two A B).1 ∧
  B `sublist_of` (consensus_two A B).1.
Proof.
  intros HA HB Hquiet. split; [by apply consensus_two_left_sublist|].
  destruct (align_two_tokens A B) as [_ H2].
  rewrite (remove_gaps_gap_free B HB) in H2.
  rewrite consensus_two_spec in Hquiet |- *. simpl in *. rewrite <-H2 at 1.
  apply (right_tokens_sublist 0); [apply align_two_length|done].
Qed.

Lemma consensus_two_supersequence_witness :
  let A := tokens ["a"; "b"; "c"] in
  let B := tokens ["b"; "c"; "d"] in
  gap_free A ∧ gap_free B ∧ (consensus_two A B).2 = [] ∧
  A `sublist_of` (consensus_two A B).1 ∧
  B `sublist_of` (consensus_two A B).1.
Proof.
  intros A B.
  assert (gap_free A) as HA by (repeat econstructor).
  assert (gap_free B) as HB by (repeat econstructor).
  assert ((consensus_two A B).2 = []) as Hquiet by (by vm_compute).
  split; [exact HA|]. split; [exact HB|]. split; [exact Hquiet|].
  exact (consensus_two_supersequence A B HA HB Hquiet).
Defined.

(** ** [consensus_three] *)

Lemma consensus_three_unfold A B C :
  consensus_three A B C
  = ((consensus_two (consensus_two A B).1 C).1,
     ["Merging first two transcripts..."] ++ (consensus_two A B).2
     ++ ["Merging consensus of first two with the third transcript..."]
     ++ (consensus_two (consensus_two A B).1 C).2).
Proof.
  unfold consensus_three, mbind, Out_bind, mret, Out_ret, print.
  destruct (consensus_two A B) as [cons12 o12]. simpl.
  destruct (consensus_two cons12 C) as [final o3]. simpl.
  by rewrite app_nil_r.
Qed.

(** X8: the first sequence survives the three-way merge whole. For a
    gap-free [A] and any [B] and [C], [A] is a subsequence of
    [consensus_three(A, B, C)], which is therefore at least as long. *)
Theorem consensus_three_keeps_first (A B C : list pyval) :
  gap_free A →
  A `sublist_of` (consensus_three A B C).1 ∧
  length A ≤ length (consensus_three A B C).1.
Proof.
  intros HA.
  assert (A `sublist_of` (consensus_three A B C).1) as Hsub.
  { rewrite consensus_three_unfold. simpl.
    transitivity (consensus_two A B).1.
    - by apply consensus_two_left_sublist.
    - apply consensus_two_left_sublist.
      rewrite consensus_two_spec. simpl. apply Forall_forall.
      intros t (c & _ & Hc)%list_elem_of_omap.
      by eapply column_token_is_Some. }
  split; [done|]. by apply sublist_length.
Qed.

Lemma consensus_three_keeps_first_witness :
  let A := tokens ["the"; "cat"; "sat"] in
  let B := tokens ["a"; "cat"; "sat"; "down"] in
  let C := [Some "the"; None; Some "dog"] in
  gap_free A ∧
  A `sublist_of` (consensus_three A B C).1 ∧
  length A ≤ length (consensus_three A B C).1.
Proof.
  intros A B C.
  assert (gap_free A) as HA by (repeat econstructor).
  split; [exact HA|]. exact (consensus_three_keeps_first A B C HA).
Defined.

(** X9: when the first two sequences are the same gap-free [A], the
    three-way merge is the pairwise merge of [A] with the third one, and
    the first merge prints nothing; in particular three identical
    sequences give [A] back and only the two progress lines are printed. *)
Theorem consensus_three_first_two_same (A C : list pyval) :
  gap_free A →
  consensus_three A A C
  = ((consensus_two A C).1,
     ["Merging first two transcripts...";
      "Merging consensus of first two with the third transcript..."]
     ++ (consensus_two A C).2) ∧
  consensus_three A A A
  = (A, ["Merging first two transcripts...";
         "Merging consensus of first two with the third transcript..."]).
Proof.
  intros HA.
  assert (consensus_two A A = (A, [])) as Hsame
    by (by rewrite consensus_two_same_any, remove_gaps_gap_free).
  split; rewrite consensus_three_unfold, Hsame; simpl; [done|].
  by rewrite Hsame.
Qed.

Lemma consensus_three_first_two_same_witness :
  let A := tokens ["the"; "cat"] in
  let C := tokens ["a"; "cat"; "sat"] in
  gap_free A ∧
  consensus_three A A C
  = ((consensus_two A C).1,
     ["Merging first two transcripts...";
      "Merging consensus of first two with the third transcript..."]
     ++ (consensus_two A C).2) ∧
  consensus_three A A A
  = (A, ["Merging first two transcripts...";
         "Merging consensus of first two with the third transcript..."]).
Proof.
  intros A C.
  assert (gap_free A) as HA by (repeat econstructor).
  split; [exact HA|]. exact (consensus_three_first_two_same A C HA).
Defined.

(** ** The blocks of [get_matching_blocks] match *)

Section matching.
Context (a b : list pyval).
Let sm := Difflib.new a b.

(** [a[i:i+k] == b[j:j+k]], element by element and inside both
    sequences. *)
Definition matching (m : Match) : Prop :=
  ∀ d, d < m.2 → same_at sm (m.1.1 + d) (m.1.2 + d) = true.

(** The indices that [b2j] lists for [a[i]] hold the element [a[i]]. *)
Lemma b2j_same_at i j :
  j ∈ default [] (a !! i ≫= λ x, chain_b b !! x) → same_at sm i j = true.
Proof.
  unfold same_at. simpl. destruct (a !! i) as [x|]; simpl.
  - destruct (chain_b b !! x) as [js|] eqn:Hjs; simpl.
    + rewrite (chain_b_lookup _ _ _ Hjs).
      intros [_ Hj]%positions_elem. rewrite Nat.sub_0_r in Hj.
      by rewrite Hj, bool_decide_true.
    + by intros ?%elem_of_nil.
  - by intros ?%elem_of_nil.
Qed.

(** At the start of row [i], [j2len[j]] is the length of a match that
    ends at [a[i-1]] and [b[j]]. *)
Definition j2len_matching (i : nat) (j2len : gmap nat nat) : Prop :=
  ∀ j v, j2len !! j = Some v →
    v ≤ i ∧ v ≤ j + 1 ∧ matching (i - v, j + 1 - v, v).

Lemma matching_snoc i j j2len :
  j2len_matching i j2len → same_at sm i j = true →
  let k := j2lenget j2len j + 1 in
  k ≤ i + 1 ∧ k ≤ j + 1 ∧ matching (i + 1 - k, j + 1 - k, k).
Proof.
  intros HJ Hij k.
  assert (j2lenget j2len j = 0 ∨
          ∃ j', j = S j' ∧ j2len !! j' = Some (j2lenget j2len j)) as Hget.
  { destruct j as [|j']; simpl; [by left|].
    destruct (j2len !! j') as [v|] eqn:Hv; simpl; [right; eauto|by left]. }
  unfold k, matching. clear k. cbn [fst snd].
  destruct Hget as [->|(j' & -> & Hv)].
  - repeat split; [lia|lia|]. intros d Hd.
    replace (i + 1 - (0 + 1) + d) with i by lia.
    by replace (j + 1 - (0 + 1) + d) with j by lia.
  - destruct (HJ _ _ Hv) as (Hvi & Hvj & Hm).
    generalize dependent (j2lenget j2len (S j')). intros v Hv Hvi Hvj Hm.
    repeat split; [lia|lia|]. intros d Hd.
    destruct (decide (d < v)) as [Hlt|Hge].
    + specialize (Hm d Hlt). cbn [fst snd] in Hm.
      replace (i + 1 - (v + 1) + d) with (i - v + d) by lia.
      by replace (S j' + 1 - (v + 1) + d) with (j' + 1 - v + d) by lia.
    + replace (i + 1 - (v + 1) + d) with i by lia.
      by replace (S j' + 1 - (v + 1) + d) with (S j') by lia.
Qed.

Lemma scan_row_matching blo bhi i j2len js newj2len best :
  j2len_matching i j2len → (∀ j, j ∈ js → same_at sm i j = true) →
  j2len_matching (S i) newj2len → matching best →
  j2len_matching (S i) (scan_row blo bhi i j2len js newj2len best).1 ∧
  matching (scan_row blo bhi i j2len js newj2len best).2.
Proof.
  intros HJ. revert newj2len best.
  induction js as [|j js IH]; intros newj2len best Hjs Hnew Hbest;
    cbn [scan_row]; [done|].
  assert (∀ j', j' ∈ js → same_at sm i j' = true) as Hjs'
    by (intros; apply Hjs; by apply list_elem_of_further).
  case_bool_decide; [by apply IH|].
  case_bool_decide; [done|].
  destruct (matching_snoc i j j2len HJ (Hjs j (list_elem_of_here _ _)))
    as (Hki & Hkj & Hm).
  apply IH; [done| |].
  - intros j' v. rewrite lookup_insert_Some. intros [[<- <-]|[_ Hv]].
    + split; [lia|]. split; [lia|].
      by replace (S i - _) with (i + 1 - (j2lenget j2len j + 1)) by lia.
    + by apply Hnew.
  - by case_bool_decide.
Qed.

Lemma scan_rows_matching blo bhi n i j2len best :
  j2len_matching i j2len → matching best →
  matching (scan_rows sm blo bhi (seq i n) j2len best).
Proof.
  revert i j2len best.
  induction n as [|n IH]; intros i j2len best HJ Hbest; [done|].
  cbn [seq scan_rows]. change (sm_a sm) with a.
  change (b2j sm) with (chain_b b).
  assert (j2len_matching (S i) ∅) as Hempty
    by (intros j v; by rewrite lookup_empty).
  pose proof (scan_row_matching blo bhi i j2len
    (default [] (a !! i ≫= λ x, chain_b b !! x)) ∅ best HJ
    (b2j_same_at i) Hempty Hbest) as [HJ' Hbest'].
  destruct (scan_row _ _ _ _ _ _ _) as [newj2len best'].
  by apply IH.
Qed.

Lemma extend_back_matching alo blo junk besti bestj bestsize :
  matching (besti, bestj, bestsize) →
  matching (extend_back sm alo blo junk besti bestj bestsize).
Proof.
  revert bestj bestsize.
  induction besti as [|i' IH]; intros bestj bestsize Hm; simpl; [done|].
  destruct (_ && _) eqn:Hguard; [|done].
  rewrite !andb_true_iff, !bool_decide_eq_true in Hguard.
  destruct Hguard as [[[_ Hj] _] Hsame]. rewrite Nat.sub_0_r in Hsame.
  apply IH. intros [|d] Hd; simpl in *.
  - by rewrite !Nat.add_0_r.
  - specialize (Hm d). simpl in Hm.
    replace (i' + S d) with (S (i' + d)) by lia.
    replace (bestj - 1 + S d) with (bestj + d) by lia. apply Hm. lia.
Qed.

Lemma extend_fwd_matching ahi bhi junk n besti bestj bestsize :
  matching (besti, bestj, bestsize) →
  matching (extend_fwd sm ahi bhi junk n besti bestj bestsize).
Proof.
  revert bestsize.
  induction n as [|n IH]; intros bestsize Hm; simpl; [done|].
  destruct (_ && _) eqn:Hguard; [|done].
  rewrite !andb_true_iff, !bool_decide_eq_true in Hguard.
  destruct Hguard as [_ Hsame].
  apply IH. intros d Hd; simpl in *.
  destruct (decide (d < bestsize)) as [Hlt|Hge]; [by apply Hm|].
  by replace d with bestsize by lia.
Qed.

Lemma extend_matching alo ahi blo bhi junk m :
  matching m → matching (extend sm alo ahi blo bhi junk m).
Proof.
  intros Hm. destruct m as [[besti bestj] bestsize]. unfold extend.
  pose proof (extend_back_matching alo blo junk besti bestj bestsize Hm) as Hb.
  destruct (extend_back _ _ _ _ _ _ _) as [[i j] k].
  by apply extend_fwd_matching.
Qed.

Lemma find_longest_match_matching alo ahi blo bhi :
  matching (find_longest_match sm alo ahi blo bhi).
Proof.
  unfold find_longest_match. do 2 apply extend_matching.
  apply scan_rows_matching.
  - intros j v. by rewrite lookup_empty.
  - intros d Hd. simpl in Hd. lia.
Qed.








End matching.


(** ** Sequences that share no token *)

Lemma find_longest_match_disjoint (A B : list pyval) alo ahi blo bhi :
  (∀ t, t ∈ A → t ∉ B) →
  (find_longest_match (Difflib.new A B) alo ahi blo bhi).2 = 0.
Proof.
  intros Hdisj.
  pose proof (find_longest_match_matching A B alo ahi blo bhi) as Hm.
  destruct (find_longest_match _ _ _ _ _) as [[i j] k]. simpl.
  destruct k as [|k]; [done|]. exfalso.
  specialize (Hm 0 (Nat.lt_0_succ k)). unfold same_at in Hm. simpl in Hm.
  destruct (A !! (i + 0)) as [x|] eqn:Hx; [|done].
  destruct (B !! (j + 0)) as [y|] eqn:Hy; [|done].
  apply bool_decide_eq_true in Hm as ->.
  apply (Hdisj y); apply list_elem_of_lookup; eauto.
Qed.

(** Without a matching block the alignment is one [replace], [delete] or
    [insert] opcode: both sequences from the start, the shorter padded. *)
Lemma align_two_no_match (A B : list pyval) :
  (find_longest_match (Difflib.new A B) 0 (length A) 0 (length B)).2 = 0 →
  align_two A B
  = (A ++ replicate (length A `max` length B - length A) None,
     B ++ replicate (length A `max` length B - length B) None).
Proof.
  intros Hk. unfold align_two, get_opcodes.
  rewrite get_matching_blocks_no_match by done.
  cbn [sm_a sm_b Difflib.new opcodes_loop].
  assert (slice A 0 (length A) = A) as HsA
    by (by rewrite slice_to_end, drop_0).
  assert (slice B 0 (length B) = B) as HsB
    by (by rewrite slice_to_end, drop_0).
  destruct (decide (0 < length A)) as [Ha|Ha];
    destruct (decide (0 < length B)) as [Hb|Hb].
  - rewrite (bool_decide_true (0 < length A)), (bool_decide_true (0 < length B)) by done.
    simpl. by rewrite HsA, HsB.
  - assert (B = []) as -> by (apply nil_length_inv; lia).
    rewrite (bool_decide_true (0 < length A)), (bool_decide_false (0 < length [])) by done.
    simpl. by rewrite HsA, Nat.max_0_r, Nat.sub_diag, Nat.sub_0_r, app_nil_r.
  - assert (A = []) as -> by (apply nil_length_inv; lia).
    rewrite (bool_decide_false (0 < length [])), (bool_decide_true (0 < length B)) by done.
    simpl. by rewrite HsB, Nat.sub_diag, Nat.sub_0_r, app_nil_r.
  - assert (A = []) as -> by (apply nil_length_inv; lia).
    assert (B = []) as -> by (apply nil_length_inv; lia).
    done.
Qed.

Lemma columns_left_gaps idx B :
  gap_free B →
  omap column_token (zip (replicate (length B) None) B) = B ∧
  loop_lines idx (zip (replicate (length B) None) B) = [].
Proof.
  intros HB. pose proof (consensus_loop_left_gaps B idx [] HB) as Hl.
  rewrite consensus_loop_spec in Hl.
  split; [exact (f_equal fst Hl)|exact (f_equal snd Hl)].
Qed.

Lemma columns_right_gaps idx A :
  gap_free A →
  omap column_token (zip A (replicate (length A) None)) = A ∧
  loop_lines idx (zip A (replicate (length A) None)) = [].
Proof.
  intros HA. pose proof (consensus_loop_right_gaps A idx [] HA) as Hl.
  rewrite consensus_loop_spec in Hl.
  split; [exact (f_equal fst Hl)|exact (f_equal snd Hl)].
Qed.

Lemma consensus_padded idx (A B : list pyval) :
  gap_free A → gap_free B → (∀ t, t ∈ A → t ∉ B) →
  let L := length A `max` length B in
  let cols := zip (A ++ replicate (L - length A) None)
                  (B ++ replicate (L - length B) None) in
  omap column_token cols = A ++ drop (length A) B ∧
  length (loop_lines idx cols) = length A `min` length B.
Proof.
  revert idx B.
  induction A as [|x A IH]; intros idx B HA HB Hdisj; cbv zeta.
  - replace (length [] `max` length B - length []) with (length B)
      by (simpl; lia).
    replace (length [] `max` length B - length B) with 0 by (simpl; lia).
    destruct (columns_left_gaps idx B HB) as [H1 H2].
    cbn [replicate app]. rewrite app_nil_r, H1, H2. done.
  - destruct B as [|y B].
    + replace (length (x :: A) `max` length [] - length (x :: A)) with 0
        by (simpl; lia).
      replace (length (x :: A) `max` length [] - length [])
        with (length (x :: A)) by (simpl; lia).
      destruct (columns_right_gaps idx (x :: A) HA) as [H1 H2].
      cbn [replicate app]. rewrite !app_nil_r, H1, H2. done.
    + apply Forall_cons in HA as [[s ->] HA].
      apply Forall_cons in HB as [[s' ->] HB].
      assert (s ≠ s') as Hne.
      { intros ->. apply (Hdisj (Some s')); apply list_elem_of_here. }
      destruct (IH (S idx) B HA HB) as [IH1 IH2].
      { intros t Ht Ht'. apply (Hdisj t); by apply list_elem_of_further. }
      cbn [length Nat.max Nat.sub app zip_with].
      rewrite omap_column_token_cons. cbn [loop_lines column_lines].
      rewrite bool_decide_false by congruence.
      cbn [column_token option_list app length drop Nat.min].
      by rewrite IH1, IH2.
Qed.

(** X11: when gap-free [A] and [B] share no token, the consensus is [A]
    followed by the tokens of [B] beyond the length of [A], and one
    mismatch line is printed for each of the first [min(len(A), len(B))]
    columns. *)
Theorem consensus_two_disjoint (A B : list pyval) :
  gap_free A → gap_free B → (∀ t, t ∈ A → t ∉ B) →
  (consensus_two A B).1 = A ++ drop (length A) B ∧
  length (consensus_two A B).2 = length A `min` length B.
Proof.
  intros HA HB Hdisj. rewrite consensus_two_spec.
  rewrite align_two_no_match by (by apply find_longest_match_disjoint).
  simpl. by apply consensus_padded.
Qed.

Lemma consensus_two_disjoint_witness :
  let A := tokens ["a"; "b"] in
  let B := tokens ["x"; "y"; "z"] in
  gap_free A ∧ gap_free B ∧ (∀ t, t ∈ A → t ∉ B) ∧
  (consensus_two A B).1 = A ++ drop (length A) B ∧
  length (consensus_two A B).2 = length A `min` length B.
Proof.
  intros A B.
  assert (gap_free A) as HA by (repeat econstructor).
  assert (gap_free B) as HB by (repeat econstructor).
  assert (∀ t, t ∈ A → t ∉ B) as Hdisj.
  { apply (proj1 (Forall_forall (λ t, t ∉ B) A)).
    apply (bool_decide_unpack (Forall (λ t, t ∉ B) A)). by vm_compute. }
  split; [exact HA|]. split; [exact HB|]. split; [exact Hdisj|].
  exact (consensus_two_disjoint A B HA HB Hdisj).
Defined.

(** X12: the merge is no majority vote. When the first sequence shares no
    token with the second and is at least as long, two identical later
    sequences cannot outvote it: [consensus_three(A, B, B)] returns [A]. *)
Theorem consensus_three_no_majority (A B : list pyval) :
  gap_free A → gap_free B → (∀ t, t ∈ A → t ∉ B) → length B ≤ length A →
  (consensus_three A B B).1 = A.
Proof.
  intros HA HB Hdisj Hlen.
  assert ((consensus_two A B).1 = A) as Hfirst.
  { rewrite consensus_two_spec.
    rewrite align_two_no_match by (by apply find_longest_match_disjoint).
    simpl. destruct (consensus_padded 0 A B HA HB Hdisj) as [-> _].
    by rewrite drop_ge, app_nil_r. }
  by rewrite consensus_three_unfold, Hfirst.
Qed.

Lemma consensus_three_no_majority_witness :
  let A := tokens ["x"; "b"] in
  let B := tokens ["y"; "c"] in
  gap_free A ∧ gap_free B ∧ (∀ t, t ∈ A → t ∉ B) ∧ length B ≤ length A ∧
  (consensus_three A B B).1 = A.
Proof.
  intros A B.
  assert (gap_free A) as HA by (repeat econstructor).
  assert (gap_free B) as HB by (repeat econstructor).
  assert (∀ t, t ∈ A → t ∉ B) as Hdisj.
  { apply (proj1 (Forall_forall (λ t, t ∉ B) A)).
    apply (bool_decide_unpack (Forall (λ t, t ∉ B) A)). by vm_compute. }
  assert (length B ≤ length A) as Hlen by (simpl; lia).
  split; [exact HA|]. split; [exact HB|]. split; [exact Hdisj|].
  split; [exact Hlen|].
  exact (consensus_three_no_majority A B HA HB Hdisj Hlen).
Defined.

(** * From three transcripts to the final transcript *)

(** The part of [process_audio_file] between the transcription loop and
    the write of the final file:
<<
    token_lists = [t.split() for t in transcripts]
    print("Computing consensus transcription using sequence alignment...")
    consensus_tokens = consensus_three(token_lists[0], token_lists[1],
                                       token_lists[2])
    final_transcript = " ".join(consensus_tokens)
>>
    [transcripts] holds the three strings that the loop before it has
    appended. The calls to the speech model and to the file system around
    these lines are not modelled. *)

Section transcript.
(** [str.split()] with no argument; whatever it does, it returns strings. *)
Variable split : string → list string.

(** [sep.join(items)]: a [TypeError] unless every item is a string. *)
Definition join (sep : string) (items : list pyval) : outcome string :=
  match mapM id items with
  | Some words => Returned (String.concat sep words)
  | None => Raised TypeError
  end.

Definition final_transcript (t1 t2 t3 : string) : Out (outcome string) :=
  let token_lists := (tokens (split t1), tokens (split t2), tokens (split t3)) in
  _ ← print "Computing consensus transcription using sequence alignment...";
  consensus_tokens ←
    consensus_three token_lists.1.1 token_lists.1.2 token_lists.2;
  mret (join " " consensus_tokens).

Lemma final_transcript_unfold t1 t2 t3 :
  final_transcript t1 t2 t3
  = (join " " (consensus_three (tokens (split t1)) (tokens (split t2))
                 (tokens (split t3))).1,
     "Computing consensus transcription using sequence alignment..."
     :: (consensus_three (tokens (split t1)) (tokens (split t2))
           (tokens (split t3))).2).
Proof.
  unfold final_transcript, mbind, Out_bind, mret, Out_ret, print. simpl.
  destruct (consensus_three _ _ _) as [consensus_tokens out]. simpl.
  by rewrite app_nil_r.
Qed.

Lemma join_tokens sep words :
  join sep (tokens words) = Returned (String.concat sep words).
Proof. unfold join, tokens. by rewrite mapM_fmap_Some. Qed.

Lemma gap_free_tokens_inv l : gap_free l → ∃ words, l = tokens words.
Proof.
  induction 1 as [|x l [s ->] _ [words ->]]; [by exists []|].
  by exists (s :: words).
Qed.

Lemma consensus_three_gap_free A B C : gap_free (consensus_three A B C).1.
Proof.
  rewrite consensus_three_unfold. simpl.
  rewrite consensus_two_spec. simpl. apply Forall_forall.
  intros t (c & _ & Hc)%list_elem_of_omap. by eapply column_token_is_Some.
Qed.

(** X13: joining the consensus never raises. For all three transcripts the
    final transcript is returned, and it is the consensus words joined by
    single spaces. *)
Theorem final_transcript_returns (t1 t2 t3 : string) :
  ∃ words,
    (consensus_three (tokens (split t1)) (tokens (split t2))
       (tokens (split t3))).1 = tokens words ∧
    (final_transcript t1 t2 t3).1 = Returned (String.concat " " words).
Proof.
  destruct (gap_free_tokens_inv _
    (consensus_three_gap_free (tokens (split t1)) (tokens (split t2))
       (tokens (split t3)))) as [words Hwords].
  exists words. split; [done|].
  by rewrite final_transcript_unfold, Hwords, join_tokens.
Qed.

(** X14: when the three transcripts are the same string, the final
    transcript is its words joined by single spaces, and no mismatch line
    is printed. *)
Theorem final_transcript_unanimous (t : string) :
  final_transcript t t t
  = (Returned (String.concat " " (split t)),
     ["Computing consensus transcription using sequence alignment...";
      "Merging first two transcripts...";
      "Merging consensus of first two with the third transcript..."]).
Proof.
  assert (consensus_two (tokens (split t)) (tokens (split t))
          = (tokens (split t), [])) as Hsame.
  { rewrite consensus_two_same_any, remove_gaps_gap_free; [done|].
    apply gap_free_tokens. }
  assert (consensus_three (tokens (split t)) (tokens (split t))
            (tokens (split t))
          = (tokens (split t),
             ["Merging first two transcripts...";
              "Merging consensus of first two with the third transcript..."]))
    as Hthree.
  { rewrite consensus_three_unfold, Hsame. cbn [fst snd]. by rewrite Hsame. }
  rewrite final_transcript_unfold, Hthree. cbn [fst snd].
  by rewrite join_tokens.
Qed.
End transcript.
